(** * az-ssh-wrapper: the argument translator of [az_ssh_wrapper.py]

    A shallow embedding of [main] and [opt_filter], together with the part
    of Python's [getopt] module that [main] calls, and the properties of
    the translation from an OpenSSH argument vector to the argument vector
    handed to [os.execvp].

    A Python [str] is a [string], a list of [str] a [list string], the pair
    [(o, a)] of an option and its value a [string * string]. A function that
    may raise returns a [result]. [main] takes [sys.argv[1:]] and the result
    of [shutil.which("az")] as arguments and returns how the run ends. *)

From Stdlib Require Import String Ascii List Bool Arith Lia.
From Equations Require Import Equations.
Import ListNotations.
Local Open Scope string_scope.
Local Open Scope list_scope.

Unset Equations With Funext.

(** ** Python values used by the program *)

(** The exceptions [main] catches: [getopt.GetoptError(msg, opt)] and the
    [IndexError] of [args.pop(0)] on an empty list. *)
Inductive exn : Type :=
| GetoptError (msg : string) (opt : string)
| IndexError (msg : string).

(** [str(err)] as used by [print(f"Error: {err}")]. *)
Definition exn_str (e : exn) : string :=
  match e with
  | GetoptError msg _ => msg
  | IndexError msg => msg
  end.

Inductive result (A : Type) : Type :=
| Ok (a : A)
| Raise (e : exn).
Arguments Ok {A} a.
Arguments Raise {A} e.

Definition bind {A B : Type} (r : result A) (k : A -> result B) : result B :=
  match r with
  | Ok a => k a
  | Raise e => Raise e
  end.

Notation "x <- r ;; k" := (bind r (fun x => k))
  (at level 61, r at next level, right associativity).
Notation "' p <- r ;; k" := (bind r (fun x => let p := x in k))
  (at level 61, p pattern, r at next level, right associativity).

(** An (option, value) pair as [getopt] returns it. *)
Definition ParsedOption : Type := (string * string)%type.

(** Slices and tests on [str]. *)
Fixpoint str_drop (n : nat) (s : string) : string :=
  match n, s with
  | 0, _ => s
  | S n', String _ s' => str_drop n' s'
  | S _, EmptyString => EmptyString
  end.

(** [s.startswith(pre)] *)
Fixpoint startswith (s pre : string) {struct pre} : bool :=
  match pre with
  | EmptyString => true
  | String c pre' =>
      match s with
      | EmptyString => false
      | String d s' => Ascii.eqb d c && startswith s' pre'
      end
  end.

Fixpoint endswith_char (s : string) (c : ascii) : bool :=
  match s with
  | EmptyString => false
  | String a EmptyString => Ascii.eqb a c
  | String _ s' => endswith_char s' c
  end.

(** [s[:-1]] *)
Fixpoint drop_last (s : string) : string :=
  match s with
  | EmptyString => EmptyString
  | String _ EmptyString => EmptyString
  | String a s' => String a (drop_last s')
  end.

Definition str_of_char (c : ascii) : string := String c EmptyString.

(** Truthiness of a [str]: the empty string is falsy. *)
Definition truthy (s : string) : bool :=
  match s with
  | EmptyString => false
  | String _ _ => true
  end.

(** ** The [getopt] module (the functions reached from [getopt.getopt]) *)

Module Getopt.

(** [short_has_arg(opt, shortopts)]: the first position of [shortopts] that
    holds [opt] (and is not a colon) decides; a colon right after it means
    the option takes an argument. *)
Fixpoint short_has_arg (opt : ascii) (shortopts : string) : result bool :=
  match shortopts with
  | EmptyString =>
      Raise (GetoptError ("option -" ++ str_of_char opt ++ " not recognized")
                         (str_of_char opt))
  | String c rest =>
      if Ascii.eqb opt c && negb (Ascii.eqb c ":"%char)
      then Ok (startswith rest ":")
      else short_has_arg opt rest
  end.

(** [do_shorts(opts, optstring, shortopts, args)]: one cluster of short
    options; an option that takes an argument uses the rest of the cluster,
    or the next element of [args] when the cluster is used up. *)
Fixpoint do_shorts (opts : list ParsedOption) (optstring : string)
    (shortopts : string) (args : list string)
  : result (list ParsedOption * list string) :=
  match optstring with
  | EmptyString => Ok (opts, args)
  | String opt optstring' =>
      has_arg <- short_has_arg opt shortopts ;;
      if has_arg then
        match optstring' with
        | EmptyString =>
            match args with
            | [] =>
                Raise (GetoptError
                         ("option -" ++ str_of_char opt ++ " requires argument")
                         (str_of_char opt))
            | optarg :: args' =>
                Ok (opts ++ [(("-" ++ str_of_char opt)%string, optarg)], args')
            end
        | String _ _ =>
            Ok (opts ++ [(("-" ++ str_of_char opt)%string, optstring')], args)
        end
      else
        do_shorts (opts ++ [(("-" ++ str_of_char opt)%string, EmptyString)])
                  optstring' shortopts args
  end.

(** [long_has_args(opt, longopts)]: exact match first, then a unique
    prefix. *)
Definition long_has_args (opt : string) (longopts : list string)
  : result (bool * string) :=
  let possibilities := filter (fun o => startswith o opt) longopts in
  match possibilities with
  | [] => Raise (GetoptError ("option --" ++ opt ++ " not recognized") opt)
  | unique_match :: others =>
      if existsb (String.eqb opt) possibilities then Ok (false, opt)
      else if existsb (String.eqb (opt ++ "=")) possibilities then Ok (true, opt)
      else
        match others with
        | _ :: _ =>
            Raise (GetoptError ("option --" ++ opt ++ " not a unique prefix") opt)
        | [] =>
            if endswith_char unique_match "="%char
            then Ok (true, drop_last unique_match)
            else Ok (false, unique_match)
        end
  end.

(** [optarg or ''] *)
Definition or_empty (optarg : option string) : string :=
  match optarg with
  | Some v => v
  | None => EmptyString
  end.

(** [do_longs(opts, opt, longopts, args)]: [opt] is the token without its
    two dashes; it is cut at the first [=] when there is one. *)
Definition do_longs (opts : list ParsedOption) (opt : string)
    (longopts : list string) (args : list string)
  : result (list ParsedOption * list string) :=
  let '(opt, optarg) :=
    match String.index 0 "=" opt with
    | None => (opt, None)
    | Some i =>
        (String.substring 0 i opt,
         Some (String.substring (i + 1) (String.length opt - (i + 1)) opt))
    end in
  '(has_arg, opt) <- long_has_args opt longopts ;;
  '(optarg, args) <-
    (if has_arg then
       match optarg with
       | None =>
           match args with
           | [] =>
               Raise (GetoptError ("option --" ++ opt ++ " requires argument") opt)
           | a :: args' => Ok (Some a, args')
           end
       | Some _ => Ok (optarg, args)
       end
     else
       match optarg with
       | Some _ =>
           Raise (GetoptError
                    ("option --" ++ opt ++ " must not have an argument") opt)
       | None => Ok (optarg, args)
       end) ;;
  Ok (opts ++ [(("--" ++ opt)%string, or_empty optarg)], args).

(** The loop test [args[0].startswith('-') and args[0] != '-']. *)
Definition is_option (a : string) : bool :=
  startswith a "-" && negb (String.eqb a "-").

(** The body of the loop of [getopt] once [args[0]] is known to be an
    option other than the terminator. *)
Definition getopt_step (shortopts : string) (longopts : list string)
    (opts : list ParsedOption) (a : string) (rest : list string)
  : result (list ParsedOption * list string) :=
  if startswith a "--"
  then do_longs opts (str_drop 2 a) longopts rest
  else do_shorts opts (str_drop 1 a) shortopts rest.

(** [inspect] keeps the equation of a matched call, for the termination
    argument of the loop. *)
Definition inspect {A : Type} (a : A) : {b : A | a = b} := exist _ a eq_refl.

(** The [while] loop of [getopt], from the state [(opts, args)]. *)
Equations? getopt_from (shortopts : string) (longopts : list string)
    (opts : list ParsedOption) (args : list string)
  : result (list ParsedOption * list string) by wf (length args) lt :=
  getopt_from shortopts longopts opts [] := Ok (opts, []);
  getopt_from shortopts longopts opts (a :: rest) with is_option a := {
    | false := Ok (opts, a :: rest);
    | true with String.eqb a "--" := {
      | true := Ok (opts, rest);
      | false with inspect (getopt_step shortopts longopts opts a rest) := {
        | exist _ (Raise e) _ := Raise e;
        | exist _ (Ok (opts', args')) Hstep :=
            getopt_from shortopts longopts opts' args' } } }.
Proof.
  (* each pass of the loop drops [args[0]]; the step drops at most one more *)
  clear getopt_from. simpl. apply Nat.lt_succ_r.
  unfold getopt_step in Hstep.
  destruct (startswith a "--").
  - unfold do_longs in Hstep.
    destruct (String.index 0 "=" (str_drop 2 a)) as [i|];
      (destruct (long_has_args _ longopts) as [[[|] o]|e]; simpl in Hstep;
       try discriminate).
    + injection Hstep as _ <-. lia.
    + destruct rest; simpl in Hstep; [discriminate|].
      injection Hstep as _ <-. simpl. lia.
    + injection Hstep as _ <-. lia.
  - revert opts Hstep. generalize (str_drop 1 a).
    induction s as [|c s IH]; intros opts; simpl.
    + intros [= _ <-]. lia.
    + destruct (short_has_arg c shortopts) as [[|]|e]; simpl;
        try discriminate.
      * destruct s.
        -- destruct rest; [discriminate|]. intros [= _ <-]. simpl. lia.
        -- intros [= _ <-]. lia.
      * apply IH.
Qed.

(** [getopt(args, shortopts, longopts)] *)
Definition getopt (args : list string) (shortopts : string)
    (longopts : list string) : result (list ParsedOption * list string) :=
  getopt_from shortopts longopts [] args.

End Getopt.

(** ** The program *)

(** The double-quote character of [f'"{az_path}"'] and of the usage text. *)
Definition dq : string := String (ascii_of_nat 34) EmptyString.

(** The text [usage()] prints. *)
Definition usage_text : string :=
  ("
SSH wrapper for az ssh

Usage:

This wrapper emulates OpenSSH, but translates the arguments and
supplies them to az ssh so that it can be used by Ansible as the
ansible_ssh_executable.

It also filters out ControlMaster and ControlPersist options, as these
appear to block for the duration of the specified ControlPersist value
when passed to az ssh. See the following GitHub issue for details:
https://github.com/Azure/azure-cli-extensions/issues/7285

Additional options for Azure Arc:
    --arc                   Use Azure Arc mode
    --subscription VALUE    Azure subscription ID
    --resource-group VALUE  Azure resource group name
    --local-user VALUE      Username to connect as

This wrapper supports all arguments supported by OpenSSH 8.9p1:

    az-ssh [-46AaCfGgKkMNnqsTtVvXxYy] [-B bind_interface]
           [-b bind_address] [-c cipher_spec] [-D [bind_address:]port]
           [-E log_file] [-e escape_char] [-F configfile] [-I pkcs11]
           [-i identity_file] [-J [user@]host[:port]] [-L address]
           [-l login_name] [-m mac_spec] [-O ctl_cmd] [-o option] [-p port]
           [-Q query_option] [-R address] [-S ctl_path] [-W host:port]
           [-w local_tun[:remote_tun]] destination [command [argument ...]]

See the ssh man page for details.

Example:

    az-ssh 1.2.3.4
    az-ssh --arc --subscription " ++ dq ++ "subid" ++ dq ++ " --resource-group " ++ dq ++ "rg" ++ dq ++ " --local-user " ++ dq ++ "admin" ++ dq ++ " server1
")%string.

(** What a run of [main] ends in: [sys.exit(status)] after the lines given to
    [print], or [os.execvp(file, args)]. *)
Inductive outcome : Type :=
| SysExit (printed : list string) (status : nat)
| Execvp (file : string) (args : list string).

(** [opt_filter(opt)] *)
Definition opt_filter (opt : ParsedOption) : bool :=
  negb (String.eqb (fst opt) "-o" && startswith (snd opt) "Control").

Definition options : string :=
  "46AaCfGgKkMNnqsTtVvXxYyB:b:c:D:E:e:f:I:i:J:L:l:m:O:o:p:Q:R:S:W:w:".

Definition long_options : list string :=
  ["arc"; "subscription="; "resource-group="; "local-user="].

(** The local variables the first loop of [main] assigns. *)
Record locals : Type := mkLocals {
  arc_mode : bool;
  subscription : option string;
  resource_group : option string;
  local_user : option string;
  filtered_opts : list ParsedOption
}.

Definition initial_locals : locals :=
  mkLocals false None None None [].

(** One pass of [for o, a in opts]. *)
Definition assign (st : locals) (oa : ParsedOption) : locals :=
  let '(o, a) := oa in
  if String.eqb o "--arc" then
    mkLocals true (subscription st) (resource_group st) (local_user st)
             (filtered_opts st)
  else if String.eqb o "--subscription" then
    mkLocals (arc_mode st) (Some a) (resource_group st) (local_user st)
             (filtered_opts st)
  else if String.eqb o "--resource-group" then
    mkLocals (arc_mode st) (subscription st) (Some a) (local_user st)
             (filtered_opts st)
  else if String.eqb o "--local-user" then
    mkLocals (arc_mode st) (subscription st) (resource_group st) (Some a)
             (filtered_opts st)
  else
    mkLocals (arc_mode st) (subscription st) (resource_group st)
             (local_user st) (filtered_opts st ++ [(o, a)]).

(** [filter(lambda o: o, opt)]: the truthy parts of the pair. *)
Definition truthy_parts (opt : ParsedOption) : list string :=
  filter truthy [fst opt; snd opt].

(** The second loop of [main]: [ssh_opts]. *)
Definition ssh_opts_of (filtered : list ParsedOption) : list string :=
  flat_map truthy_parts (filter opt_filter filtered).

(** [if v:] for a variable that is [None] or a [str]. *)
Definition if_set (name : string) (v : option string) : list string :=
  match v with
  | Some a => if truthy a then [name; a] else []
  | None => []
  end.

(** [f'"{az_path}"'] for the result of [shutil.which]. *)
Definition quoted_az_path (which_az : option string) : string :=
  (dq ++ match which_az with Some p => p | None => "None" end ++ dq)%string.

(** The tokens appended to [exec_args] by the [if arc_mode: ... else: ...]
    statement. *)
Definition mode_tokens (st : locals) (destination : string) : list string :=
  if arc_mode st then
    ["arc"]
    ++ if_set "--subscription" (subscription st)
    ++ if_set "--resource-group" (resource_group st)
    ++ if_set "--local-user" (local_user st)
    ++ ["--name"; destination]
  else ["--name"; destination].

(** Truthiness of a [list]. *)
Definition nonempty {A : Type} (l : list A) : bool :=
  match l with
  | [] => false
  | _ :: _ => true
  end.

(** The tokens appended by [if ssh_opts or args: ...]. *)
Definition passthrough (ssh_opts args : list string) : list string :=
  if nonempty ssh_opts || nonempty args
  then ["--"] ++ ssh_opts ++ args
  else [].

(** The list [exec_args] built from the locals, the destination and the
    remaining positional arguments. *)
Definition exec_args_of (az_path : string) (st : locals)
    (destination : string) (args : list string) : list string :=
  [az_path; "ssh"]
  ++ mode_tokens st destination
  ++ passthrough (ssh_opts_of (filtered_opts st)) args.

(** [args.pop(0)] *)
Definition pop0 (args : list string) : result (string * list string) :=
  match args with
  | [] => Raise (IndexError "pop from empty list")
  | a :: args' => Ok (a, args')
  end.

(** [main()], with [sys.argv[1:]] and the result of [shutil.which("az")] as
    arguments. *)
Definition main (which_az : option string) (argv : list string) : outcome :=
  match ('(opts, args) <- Getopt.getopt argv options long_options ;;
         '(destination, args) <- pop0 args ;;
         Ok (opts, destination, args)) with
  | Raise err =>
      SysExit [("Error: " ++ exn_str err)%string; usage_text] 2
  | Ok (opts, destination, args) =>
      let az_path := quoted_az_path which_az in
      let st := fold_left assign opts initial_locals in
      Execvp "az" (exec_args_of az_path st destination args)
  end.

(** The tokens of the plan after the subcommand: [exec_args[2:]] of a run
    that reaches [os.execvp]. *)
Definition plan_tokens (o : outcome) : option (list string) :=
  match o with
  | Execvp _ args => Some (skipn 2 args)
  | SysExit _ _ => None
  end.

(** ** Notions used to state the properties *)

(** [getopt.getopt] with the grammar of [main]. *)
Definition parse (argv : list string)
  : result (list ParsedOption * list string) :=
  Getopt.getopt argv options long_options.

(** The locals after the first loop of [main]. *)
Definition locals_of (opts : list ParsedOption) : locals :=
  fold_left assign opts initial_locals.

(** The four extension options, which [main] keeps for itself. *)
Definition is_extension (name : string) : bool :=
  String.eqb name "--arc" || String.eqb name "--subscription"
  || String.eqb name "--resource-group" || String.eqb name "--local-user".

(** The three extension options that only matter in Arc mode. *)
Definition mode_dependent : list string :=
  ["--subscription"; "--resource-group"; "--local-user"].

(** The parsed options that are not extension options, in parse order. *)
Definition forwarded (opts : list ParsedOption) : list ParsedOption :=
  filter (fun oa => negb (is_extension (fst oa))) opts.

(** The forwarded options that pass [opt_filter], in parse order. *)
Definition surviving (opts : list ParsedOption) : list ParsedOption :=
  filter opt_filter (forwarded opts).

(** The tokens the forwarded options of [opts] put into the plan. *)
Definition forwarded_tokens (opts : list ParsedOption) : list string :=
  flat_map truthy_parts (surviving opts).

(** The value of the last occurrence of the option [name] in [opts]. *)
Definition last_value (name : string) (opts : list ParsedOption)
  : option string :=
  option_map snd (find (fun oa => String.eqb (fst oa) name) (rev opts)).

(** Whether the option [name] occurs in [opts]. *)
Definition supplied (name : string) (opts : list ParsedOption) : bool :=
  existsb (fun oa => String.eqb (fst oa) name) opts.

(** [pre] is a run of complete options: the loop of [getopt], started on
    [pre] followed by anything, is back at its head once [pre] is read, with
    the options [popts] appended to those parsed before. *)
Definition parses_to (pre : list string) (popts : list ParsedOption) : Prop :=
  forall opts rest,
    Getopt.getopt_from options long_options opts (pre ++ rest) =
    Getopt.getopt_from options long_options (opts ++ popts) rest.

(** What a step does once the options already parsed are set aside. *)
Definition with_parsed (opts : list ParsedOption)
    (r : result (list ParsedOption * list string))
  : result (list ParsedOption * list string) :=
  match r with
  | Ok (o, a) => Ok (opts ++ o, a)
  | Raise e => Raise e
  end.

(** Whether the arguments parse and [--arc] is among the parsed options. *)
Definition arc_given (argv : list string) : bool :=
  match parse argv with
  | Ok (opts, _) => supplied "--arc" opts
  | Raise _ => false
  end.

(** The run ends in the usage error: an error line and the usage text on
    standard output, then exit status 2. *)
Definition usage_error (which_az : option string) (argv : list string) : Prop :=
  exists msg,
    main which_az argv = SysExit [("Error: " ++ msg)%string; usage_text] 2.

(** The short flags that take no value, and those that take one, as the
    usage text lists them. *)
Definition no_value_flags : string := "46AaCfGgKkMNnqsTtVvXxYy".
Definition value_flags : string := "BbcDEeFIiJLlmOopQRSWw".

(** The short flags that [options] gives a value. *)
Definition accepted_value_flags : string := "BbcDEeIiJLlmOopQRSWw".

Definition chars (s : string) : list ascii := list_ascii_of_string s.

Definition occurs (c : ascii) (s : string) : bool :=
  existsb (Ascii.eqb c) (chars s).

(** A token [-xyz] made of one or more flags that take no value. *)
Definition no_value_cluster (cluster : string) : bool :=
  truthy cluster && forallb (fun c => occurs c no_value_flags) (chars cluster).

Definition flag_token (c : ascii) : string := ("-" ++ str_of_char c)%string.

(** The name of a short flag that takes no value. *)
Definition is_no_value_flag (name : string) : bool :=
  existsb (fun c => String.eqb name (flag_token c)) (chars no_value_flags).

(** What holds of every pair [getopt] returns: the name is not empty, and
    a flag that takes no value has the empty string as its value. *)
Definition well_parsed (oa : ParsedOption) : Prop :=
  truthy (fst oa) = true
  /\ (is_no_value_flag (fst oa) = true -> snd oa = EmptyString).

(** The options a run of flags without value parses to. *)
Definition flag_options (flags : list ascii) : list ParsedOption :=
  map (fun c => (flag_token c, EmptyString)) flags.

(** Whether [options] makes [c] a flag that takes a value. *)
Definition takes_value (c : ascii) : bool :=
  match Getopt.short_has_arg c options with
  | Ok true => true
  | _ => false
  end.

(** A sample result of [shutil.which("az")]. *)
Definition sample_az : option string := Some "/usr/bin/az".

(** All that [exec_args] takes from the parsed options: whether [--arc] is
    among them, the last value of each of the three other extension
    options, and the tokens of the forwarded options. *)
Definition view (opts : list ParsedOption)
  : bool * option string * option string * option string * list string :=
  (supplied "--arc" opts,
   last_value "--subscription" opts,
   last_value "--resource-group" opts,
   last_value "--local-user" opts,
   forwarded_tokens opts).

(** [x or y] for two values that are [None] or not. *)
Definition or_else {A : Type} (x y : option A) : option A :=
  match x with
  | Some _ => x
  | None => y
  end.

(** The view of [a + b] from the views of [a] and [b]. *)
Definition view_app
    (va vb : bool * option string * option string * option string
             * list string)
  : bool * option string * option string * option string * list string :=
  let '(arc_a, sub_a, rg_a, lu_a, toks_a) := va in
  let '(arc_b, sub_b, rg_b, lu_b, toks_b) := vb in
  (arc_a || arc_b, or_else sub_b sub_a, or_else rg_b rg_a,
   or_else lu_b lu_a, toks_a ++ toks_b).

(** The prefixes of a string, the empty one first. *)
Fixpoint prefixes (s : string) : list string :=
  match s with
  | EmptyString => [EmptyString]
  | String c s' => EmptyString :: map (String c) (prefixes s')
  end.

(** The long options that take a value, without their dashes. *)
Definition valued_long_names : list string :=
  ["subscription"; "resource-group"; "local-user"].

(** [options] without its [f:], which comes after the [f] that takes no
    value. *)
Definition options_without_second_f : string :=
  "46AaCfGgKkMNnqsTtVvXxYyB:b:c:D:E:e:I:i:J:L:l:m:O:o:p:Q:R:S:W:w:".

(** ** Tactics *)

(** Case analysis on the [if]/[elif] chain of the first loop. *)
Ltac option_name_cases o :=
  destruct (String.eqb_spec o "--arc") as [?|?];
  [|destruct (String.eqb_spec o "--subscription") as [?|?];
    [|destruct (String.eqb_spec o "--resource-group") as [?|?];
      [|destruct (String.eqb_spec o "--local-user") as [?|?]]]];
  subst; simpl.

Ltac use_name_differs :=
  repeat match goal with
         | H : _ <> _ :> string |- _ =>
             apply String.eqb_neq in H; rewrite ?H; clear H
         end.

(** Case analysis on the 256 characters. *)
Ltac each_char c := destruct c as [[] [] [] [] [] [] [] []].

(** ** Facts about [getopt] *)

Section GetoptFacts.

Import Getopt.

Variable shortopts : string.
Variable longopts : list string.

(** The loop of [getopt], unfolded once. *)
Lemma getopt_from_cons opts a rest :
  getopt_from shortopts longopts opts (a :: rest) =
  if is_option a then
    if String.eqb a "--" then Ok (opts, rest)
    else match getopt_step shortopts longopts opts a rest with
         | Ok (opts', args') => getopt_from shortopts longopts opts' args'
         | Raise e => Raise e
         end
  else Ok (opts, a :: rest).
Proof.
  simp getopt_from.
  destruct (is_option a); simpl; [|reflexivity].
  destruct (String.eqb a "--"); simpl; [reflexivity|].
  unfold inspect.
  destruct (getopt_step shortopts longopts opts a rest) as [[o r]|e];
    reflexivity.
Qed.

Lemma getopt_from_nil opts :
  getopt_from shortopts longopts opts [] = Ok (opts, []).
Proof. now simp getopt_from. Qed.

Lemma do_shorts_acc opts optstring args :
  do_shorts opts optstring shortopts args =
  with_parsed opts (do_shorts [] optstring shortopts args).
Proof.
  revert opts. induction optstring as [|c s IH]; intros opts; simpl.
  - now rewrite app_nil_r.
  - destruct (short_has_arg c shortopts) as [[|]|e]; simpl; trivial.
    + destruct s; [destruct args|]; reflexivity.
    + rewrite IH. rewrite (IH [_]).
      destruct (do_shorts [] s shortopts args) as [[o a]|e]; simpl; trivial.
      now rewrite <- app_assoc.
Qed.

Lemma do_longs_acc opts opt args :
  do_longs opts opt longopts args =
  with_parsed opts (do_longs [] opt longopts args).
Proof.
  unfold do_longs.
  destruct (String.index 0 "=" opt) as [i|];
    (destruct (long_has_args _ longopts) as [[[|] o]|e]; simpl; trivial).
  - destruct args; reflexivity.
Qed.

Lemma getopt_step_acc opts a rest :
  getopt_step shortopts longopts opts a rest =
  with_parsed opts (getopt_step shortopts longopts [] a rest).
Proof.
  unfold getopt_step. destruct (startswith a "--").
  - apply do_longs_acc.
  - apply do_shorts_acc.
Qed.

Lemma getopt_step_shorter opts a rest opts' args' :
  getopt_step shortopts longopts opts a rest = Ok (opts', args') ->
  exists used, rest = used ++ args' /\ length used <= 1.
Proof.
  unfold getopt_step. destruct (startswith a "--").
  - unfold do_longs.
    destruct (String.index 0 "=" (str_drop 2 a)) as [i|];
      (destruct (long_has_args _ longopts) as [[[|] o]|e]; simpl;
       try discriminate).
    + intros [= _ <-]. exists []. split; [reflexivity | simpl; lia].
    + destruct rest as [|v rest']; simpl; [discriminate|].
      intros [= _ <-]. exists [v]. split; [reflexivity | simpl; lia].
    + intros [= _ <-]. exists []. split; [reflexivity | simpl; lia].
  - revert opts. generalize (str_drop 1 a).
    induction s as [|c s IH]; intros opts; simpl.
    + intros [= _ <-]. exists []. split; [reflexivity | simpl; lia].
    + destruct (short_has_arg c shortopts) as [[|]|e]; simpl;
        try discriminate.
      * destruct s.
        -- destruct rest as [|v rest']; [discriminate|].
           intros [= _ <-]. exists [v]. split; [reflexivity | simpl; lia].
        -- intros [= _ <-]. exists []. split; [reflexivity | simpl; lia].
      * apply IH.
Qed.

(** The loop only appends to the options parsed so far, and what it does
    with the arguments does not depend on them. *)
Lemma getopt_from_acc opts args :
  getopt_from shortopts longopts opts args =
  with_parsed opts (getopt_from shortopts longopts [] args).
Proof.
  remember (length args) as n eqn:Hn.
  revert opts args Hn.
  induction n as [n IH] using lt_wf_ind; intros opts args Hn.
  destruct args as [|a rest].
  - rewrite !getopt_from_nil. simpl. now rewrite app_nil_r.
  - rewrite !getopt_from_cons.
    destruct (is_option a); simpl; [|now rewrite app_nil_r].
    destruct (String.eqb a "--"); simpl; [now rewrite app_nil_r|].
    rewrite getopt_step_acc.
    destruct (getopt_step shortopts longopts [] a rest) as [[o r]|e] eqn:Hs;
      simpl; trivial.
    destruct (getopt_step_shorter _ _ _ _ _ Hs) as (used & -> & _).
    assert (Hlt : length r < n)
      by (subst n; simpl; rewrite length_app; lia).
    rewrite (IH _ Hlt (opts ++ o) r eq_refl).
    rewrite (IH _ Hlt o r eq_refl).
    destruct (getopt_from shortopts longopts [] r) as [[o' r']|e']; simpl;
      trivial.
    now rewrite app_assoc.
Qed.

(** The remaining arguments are a trailing slice of the input. *)
Lemma getopt_from_suffix opts args opts' args' :
  getopt_from shortopts longopts opts args = Ok (opts', args') ->
  exists used, args = used ++ args'.
Proof.
  remember (length args) as n eqn:Hn.
  revert opts args Hn.
  induction n as [n IH] using lt_wf_ind; intros opts args Hn.
  destruct args as [|a rest].
  - rewrite getopt_from_nil. intros [= _ <-]. now exists [].
  - rewrite getopt_from_cons.
    destruct (is_option a).
    + destruct (String.eqb a "--").
      * intros [= _ <-]. now exists [a].
      * destruct (getopt_step shortopts longopts opts a rest)
          as [[o r]|e] eqn:Hs; [|discriminate].
        destruct (getopt_step_shorter _ _ _ _ _ Hs) as (used & -> & _).
        intros Hr.
        assert (Hlt : length r < n)
          by (subst n; simpl; rewrite length_app; lia).
        destruct (IH _ Hlt o r eq_refl Hr) as (used' & ->).
        exists (a :: used ++ used'). simpl. now rewrite app_assoc.
    + intros [= _ <-]. now exists [].
Qed.

End GetoptFacts.

(** ** Facts about the locals of [main] *)

Lemma locals_of_snoc opts oa :
  locals_of (opts ++ [oa]) = assign (locals_of opts) oa.
Proof. unfold locals_of. now rewrite fold_left_app. Qed.

Lemma arc_mode_locals opts :
  arc_mode (locals_of opts) = supplied "--arc" opts.
Proof.
  unfold supplied.
  induction opts as [|[o a] opts IH] using rev_ind; [reflexivity|].
  rewrite locals_of_snoc, existsb_app. simpl. unfold assign.
  option_name_cases o; now rewrite ?IH, ?orb_true_r, ?orb_false_r.
Qed.

Lemma filtered_opts_locals opts :
  filtered_opts (locals_of opts) = forwarded opts.
Proof.
  unfold forwarded.
  induction opts as [|[o a] opts IH] using rev_ind; [reflexivity|].
  rewrite locals_of_snoc, filter_app. simpl. unfold is_extension, assign.
  option_name_cases o; now rewrite ?IH, ?app_nil_r.
Qed.

Lemma last_value_snoc name opts o a :
  last_value name (opts ++ [(o, a)]) =
  if String.eqb o name then Some a else last_value name opts.
Proof.
  unfold last_value. rewrite rev_app_distr. simpl.
  now destruct (String.eqb o name).
Qed.

Lemma subscription_locals opts :
  subscription (locals_of opts) = last_value "--subscription" opts.
Proof.
  induction opts as [|[o a] opts IH] using rev_ind; [reflexivity|].
  rewrite locals_of_snoc, last_value_snoc. unfold assign.
  option_name_cases o; trivial; now use_name_differs.
Qed.

Lemma resource_group_locals opts :
  resource_group (locals_of opts) = last_value "--resource-group" opts.
Proof.
  induction opts as [|[o a] opts IH] using rev_ind; [reflexivity|].
  rewrite locals_of_snoc, last_value_snoc. unfold assign.
  option_name_cases o; trivial; now use_name_differs.
Qed.

Lemma local_user_locals opts :
  local_user (locals_of opts) = last_value "--local-user" opts.
Proof.
  induction opts as [|[o a] opts IH] using rev_ind; [reflexivity|].
  rewrite locals_of_snoc, last_value_snoc. unfold assign.
  option_name_cases o; trivial; now use_name_differs.
Qed.

Lemma forwarded_app o1 o2 : forwarded (o1 ++ o2) = forwarded o1 ++ forwarded o2.
Proof. apply filter_app. Qed.

Lemma surviving_app o1 o2 : surviving (o1 ++ o2) = surviving o1 ++ surviving o2.
Proof. unfold surviving. now rewrite forwarded_app, filter_app. Qed.

Lemma forwarded_tokens_app o1 o2 :
  forwarded_tokens (o1 ++ o2) = forwarded_tokens o1 ++ forwarded_tokens o2.
Proof. unfold forwarded_tokens. now rewrite surviving_app, flat_map_app. Qed.

Lemma ssh_opts_locals opts :
  ssh_opts_of (filtered_opts (locals_of opts)) = forwarded_tokens opts.
Proof. unfold ssh_opts_of. now rewrite filtered_opts_locals. Qed.

(** ** The three ways [main] ends *)

Lemma main_execvp az argv opts destination args :
  parse argv = Ok (opts, destination :: args) ->
  main az argv =
  Execvp "az" (exec_args_of (quoted_az_path az) (locals_of opts)
                            destination args).
Proof. unfold main, parse. now intros ->. Qed.

Lemma main_no_destination az argv opts :
  parse argv = Ok (opts, []) ->
  main az argv = SysExit ["Error: pop from empty list"; usage_text] 2.
Proof. unfold main, parse. now intros ->. Qed.

Lemma main_getopt_error az argv e :
  parse argv = Raise e ->
  main az argv = SysExit [("Error: " ++ exn_str e)%string; usage_text] 2.
Proof. unfold main, parse. now intros ->. Qed.

(** ** Runs of complete options *)

Lemma parses_to_nil : parses_to [] [].
Proof. intros opts rest. simpl. now rewrite app_nil_r. Qed.

Lemma parses_to_app pre1 popts1 pre2 popts2 :
  parses_to pre1 popts1 -> parses_to pre2 popts2 ->
  parses_to (pre1 ++ pre2) (popts1 ++ popts2).
Proof.
  intros H1 H2 opts rest.
  now rewrite <- app_assoc, H1, H2, app_assoc.
Qed.

Lemma parse_after pre popts rest :
  parses_to pre popts ->
  parse (pre ++ rest) = with_parsed popts (parse rest).
Proof.
  intros H. unfold parse, Getopt.getopt.
  rewrite H. simpl. apply getopt_from_acc.
Qed.

Lemma parse_positional d rest :
  Getopt.is_option d = false -> parse (d :: rest) = Ok ([], d :: rest).
Proof.
  intros H. unfold parse, Getopt.getopt.
  now rewrite getopt_from_cons, H.
Qed.

Lemma parses_to_arc : parses_to ["--arc"] [("--arc", EmptyString)].
Proof. intros opts rest. simpl. now rewrite getopt_from_cons. Qed.

Lemma parses_to_mode_dependent name v :
  In name mode_dependent -> parses_to [name; v] [(name, v)].
Proof.
  intros Hin opts rest.
  destruct Hin as [<-|[<-|[<-|[]]]]; simpl; now rewrite getopt_from_cons.
Qed.

(** ** Prefixes *)

Lemma startswith_spec s pre :
  startswith s pre = true <-> exists rest, s = (pre ++ rest)%string.
Proof.
  revert s. induction pre as [|c pre IH]; intros s; simpl.
  - split; [intros _; now exists s | reflexivity].
  - destruct s as [|d s]; simpl.
    + split; [discriminate | intros [rest [=]]].
    + destruct (Ascii.eqb_spec d c) as [->|Hcd]; simpl.
      * rewrite IH. split; intros [rest Hr]; exists rest.
        -- now rewrite Hr.
        -- now injection Hr.
      * split; [discriminate|]. intros [rest [= Hd _]]. congruence.
Qed.

Lemma opt_filter_spec opt :
  opt_filter opt = false <->
  fst opt = "-o" /\ exists rest, snd opt = ("Control" ++ rest)%string.
Proof.
  unfold opt_filter.
  rewrite negb_false_iff, andb_true_iff, String.eqb_eq, startswith_spec.
  reflexivity.
Qed.

(** ** The filtering rule *)

(** C1: when the arguments parse and give a destination, the plan is built
    from the surviving options only, and a forwarded option is left out of
    them exactly when its name is [-o] and its value is ["Control"] followed
    by anything; the match is case-sensitive and anchored, so
    [controlmaster=auto] and [XControl] stay. *)
Theorem C1_control_options_dropped az argv opts destination args :
  parse argv = Ok (opts, destination :: args) ->
  main az argv =
    Execvp "az" ([quoted_az_path az; "ssh"]
                 ++ mode_tokens (locals_of opts) destination
                 ++ passthrough (flat_map truthy_parts (surviving opts)) args)
  /\ (forall opt, In opt (forwarded opts) ->
        (~ In opt (surviving opts) <->
         fst opt = "-o" /\ exists rest, snd opt = ("Control" ++ rest)%string))
  /\ surviving [("-o", "controlmaster=auto"); ("-o", "ControlMaster=auto");
                ("-o", "XControl"); ("-S", "ControlPath")]
     = [("-o", "controlmaster=auto"); ("-o", "XControl");
        ("-S", "ControlPath")].
Proof.
  intros Hparse. split; [|split].
  - rewrite (main_execvp az _ _ _ _ Hparse). unfold exec_args_of.
    now rewrite ssh_opts_locals.
  - intros opt Hfwd. unfold surviving. rewrite filter_In.
    rewrite <- opt_filter_spec. split.
    + intros Hnot. destruct (opt_filter opt); [|reflexivity].
      exfalso. apply Hnot. now split.
    + intros Hf [_ Ht]. congruence.
  - reflexivity.
Qed.

Lemma C1_control_options_dropped_witness :
  main sample_az
       ["-t"; "-o"; "ControlMaster=auto"; "-o"; "controlmaster=no"; "host1"]
  = Execvp "az" [quoted_az_path sample_az; "ssh"; "--name"; "host1"; "--";
                 "-t"; "-o"; "controlmaster=no"].
Proof.
  exact (proj1 (C1_control_options_dropped sample_az
                  ["-t"; "-o"; "ControlMaster=auto"; "-o"; "controlmaster=no";
                   "host1"]
                  [("-t", EmptyString); ("-o", "ControlMaster=auto");
                   ("-o", "controlmaster=no")]
                  "host1" []
                  eq_refl)).
Defined.

(** C2 as the program has it: for [-t -o ControlMaster=auto host1] the
    plan after the subcommand is [--name host1 -- -t]; the Control option is
    dropped and [-t] stays one token, with its dash. *)
Theorem C2_example_keeps_dash az :
  plan_tokens (main az ["-t"; "-o"; "ControlMaster=auto"; "host1"])
  = Some ["--name"; "host1"; "--"; "-t"].
Proof. reflexivity. Qed.

(** C2 as stated fails: the plan for [-t -o ControlMaster=auto host1] is
    not [--name host1 -- t]. *)
Lemma C2_example_is_not_bare_t :
  plan_tokens (main sample_az ["-t"; "-o"; "ControlMaster=auto"; "host1"])
  <> Some ["--name"; "host1"; "--"; "t"].
Proof. vm_compute. discriminate. Qed.

(** C4 on the program: [-F configfile host1] ends in the usage error, as
    [F] is not in [options], which has [f:] between [e:] and [I:] where the
    usage text has [-F configfile]; of the value flags of the usage text, [F]
    is the only one that [options] does not give a value. *)
Theorem C4_F_flag_not_recognized az :
  main az ["-F"; "configfile"; "host1"]
    = SysExit ["Error: option -F not recognized"; usage_text] 2
  /\ Getopt.short_has_arg "F"%char options
     = Raise (GetoptError "option -F not recognized" "F")
  /\ filter (fun c => negb (takes_value c)) (chars value_flags) = ["F"%char]
  /\ (exists n, String.index 0 "[-F configfile]" usage_text = Some n)
  /\ (exists n, String.index 0 "e:f:I:" options = Some n).
Proof.
  repeat split; try reflexivity; eexists; vm_compute; reflexivity.
Qed.

(** ** Short flags of the grammar of [main] *)

Lemma no_value_flag_has_no_arg c :
  occurs c no_value_flags = true ->
  Getopt.short_has_arg c options = Ok false /\ Ascii.eqb c "-" = false.
Proof. each_char c; vm_compute; intros H; (discriminate H || now split). Qed.

Lemma value_flag_is_not_no_value c :
  Getopt.short_has_arg c options = Ok true ->
  occurs c no_value_flags = false /\ Ascii.eqb c "-" = false.
Proof. each_char c; vm_compute; intros H; (discriminate H || now split). Qed.

Lemma unknown_char_not_recognized c :
  occurs c options = false \/ c = ":"%char ->
  Getopt.short_has_arg c options =
  Raise (GetoptError ("option -" ++ str_of_char c ++ " not recognized")
                     (str_of_char c)).
Proof.
  intros [H| ->]; [|reflexivity]. revert H.
  each_char c; vm_compute; intros H; (discriminate H || reflexivity).
Qed.

Lemma do_shorts_no_value opts cluster args :
  forallb (fun c => occurs c no_value_flags) (chars cluster) = true ->
  Getopt.do_shorts opts cluster options args =
  Ok (opts ++ flag_options (chars cluster), args).
Proof.
  revert opts.
  induction cluster as [|c s IH]; intros opts;
    cbn [Getopt.do_shorts chars list_ascii_of_string forallb flag_options map].
  - intros _. now rewrite app_nil_r.
  - rewrite andb_true_iff. intros [Hc Hs].
    destruct (no_value_flag_has_no_arg c Hc) as [-> _]. cbn [bind].
    rewrite (IH _ Hs), <- app_assoc. reflexivity.
Qed.

(** The loop on a token that starts with one dash only. *)
Lemma getopt_from_short c s opts rest :
  Ascii.eqb c "-" = false ->
  Getopt.getopt_from options long_options opts
                     (("-" ++ String c s)%string :: rest) =
  match Getopt.do_shorts opts (String c s) options rest with
  | Ok (opts', args') => Getopt.getopt_from options long_options opts' args'
  | Raise e => Raise e
  end.
Proof.
  intros Hdash. rewrite getopt_from_cons.
  unfold Getopt.is_option, Getopt.getopt_step.
  set (shorts := Getopt.do_shorts _ _ _ _).
  set (longs := Getopt.do_longs _ _ _ _).
  simpl. rewrite Hdash. reflexivity.
Qed.

Lemma parses_to_cluster cluster :
  no_value_cluster cluster = true ->
  parses_to [("-" ++ cluster)%string] (flag_options (chars cluster)).
Proof.
  unfold no_value_cluster. rewrite andb_true_iff. intros [Hne Hall].
  intros opts rest. cbn [app].
  destruct cluster as [|c s]; [discriminate|].
  pose proof Hall as Hall'. cbn [chars list_ascii_of_string forallb] in Hall'.
  apply andb_true_iff in Hall'. destruct Hall' as [Hc _].
  destruct (no_value_flag_has_no_arg c Hc) as [_ Hdash].
  rewrite getopt_from_short by assumption.
  now rewrite (do_shorts_no_value opts (String c s) rest Hall).
Qed.

Lemma parses_to_clusters clusters :
  forallb no_value_cluster clusters = true ->
  parses_to (map (fun s => ("-" ++ s)%string) clusters)
            (flag_options (flat_map chars clusters)).
Proof.
  induction clusters as [|s clusters IH]; simpl.
  - intros _. apply parses_to_nil.
  - rewrite andb_true_iff. intros [Hs Hrest].
    unfold flag_options. rewrite map_app.
    apply (parses_to_app [_] _ _ _ (parses_to_cluster s Hs) (IH Hrest)).
Qed.

Lemma parses_to_value_flag c v :
  Getopt.short_has_arg c options = Ok true ->
  parses_to [flag_token c; v] [(flag_token c, v)].
Proof.
  intros Hc opts rest. cbn [app].
  destruct (value_flag_is_not_no_value c Hc) as [_ Hdash].
  unfold flag_token, str_of_char. rewrite getopt_from_short by assumption.
  cbn [Getopt.do_shorts]. rewrite Hc. reflexivity.
Qed.

(** ** Where option parsing stops, and the order of what is forwarded *)

Lemma passthrough_cons ssh_opts a args :
  passthrough ssh_opts (a :: args) = ["--"] ++ ssh_opts ++ a :: args.
Proof. unfold passthrough. simpl. now rewrite orb_true_r. Qed.

Lemma main_at_destination az pre popts d rest :
  parses_to pre popts ->
  Getopt.is_option d = false ->
  main az (pre ++ d :: rest) =
  Execvp "az" ([quoted_az_path az; "ssh"]
               ++ mode_tokens (locals_of popts) d
               ++ passthrough (forwarded_tokens popts) rest).
Proof.
  intros Hpre Hd.
  assert (Hparse : parse (pre ++ d :: rest) = Ok (popts, d :: rest)).
  { rewrite (parse_after _ _ _ Hpre), (parse_positional _ _ Hd). simpl.
    now rewrite app_nil_r. }
  rewrite (main_execvp az _ _ _ _ Hparse). unfold exec_args_of.
  now rewrite ssh_opts_locals.
Qed.

(** C10: after a run of complete options, the first token that is not an
    option is the destination, and all that follows it, whatever it looks
    like, is put after the separator as it stands: it is neither parsed nor
    filtered. *)
Theorem C10_parsing_stops_at_destination az pre popts d rest :
  parses_to pre popts ->
  Getopt.is_option d = false ->
  parse (pre ++ d :: rest) = Ok (popts, d :: rest)
  /\ main az (pre ++ d :: rest) =
       Execvp "az" ([quoted_az_path az; "ssh"]
                    ++ mode_tokens (locals_of popts) d
                    ++ passthrough (forwarded_tokens popts) rest)
  /\ (rest <> [] ->
      passthrough (forwarded_tokens popts) rest =
      ["--"] ++ forwarded_tokens popts ++ rest).
Proof.
  intros Hpre Hd. split; [|split].
  - rewrite (parse_after _ _ _ Hpre), (parse_positional _ _ Hd). simpl.
    now rewrite app_nil_r.
  - now apply main_at_destination.
  - destruct rest as [|a rest]; [congruence|]. intros _.
    apply passthrough_cons.
Qed.

Lemma C10_parsing_stops_at_destination_witness :
  main sample_az ["-t"; "host1"; "-o"; "ControlMaster=auto"; "-Z"; "--arc"]
  = Execvp "az" [quoted_az_path sample_az; "ssh"; "--name"; "host1"; "--";
                 "-t"; "-o"; "ControlMaster=auto"; "-Z"; "--arc"].
Proof.
  exact (proj1 (proj2
    (C10_parsing_stops_at_destination sample_az
       ["-t"] [("-t", EmptyString)] "host1"
       ["-o"; "ControlMaster=auto"; "-Z"; "--arc"]
       (parses_to_cluster "t" eq_refl) eq_refl))).
Defined.

(** C8: the options of an earlier part of the input come before those of a
    later part, both among the parsed options and among the tokens they put
    into the plan, and the positional arguments after the destination end
    the input and end the plan, unchanged. *)
Theorem C8_order_preserved az pre popts rest opts destination args :
  parses_to pre popts ->
  parse rest = Ok (opts, destination :: args) ->
  parse (pre ++ rest) = Ok (popts ++ opts, destination :: args)
  /\ (exists used, rest = used ++ destination :: args)
  /\ surviving (popts ++ opts) = surviving popts ++ surviving opts
  /\ main az (pre ++ rest) =
       Execvp "az" ([quoted_az_path az; "ssh"]
                    ++ mode_tokens (locals_of (popts ++ opts)) destination
                    ++ passthrough (flat_map truthy_parts (surviving popts)
                                    ++ flat_map truthy_parts (surviving opts))
                                   args).
Proof.
  intros Hpre Hrest.
  assert (Hparse : parse (pre ++ rest)
                   = Ok (popts ++ opts, destination :: args)).
  { rewrite (parse_after _ _ _ Hpre), Hrest. reflexivity. }
  split; [exact Hparse|]. split; [|split].
  - exact (getopt_from_suffix _ _ _ _ _ _ Hrest).
  - apply surviving_app.
  - rewrite (main_execvp az _ _ _ _ Hparse). unfold exec_args_of.
    rewrite ssh_opts_locals, forwarded_tokens_app. reflexivity.
Qed.

Lemma C8_order_preserved_witness :
  main sample_az
       ["-v"; "-p"; "22"; "-o"; "ControlPath=x"; "-i"; "key"; "-t";
        "host1"; "ls"; "-la"]
  = Execvp "az" [quoted_az_path sample_az; "ssh"; "--name"; "host1"; "--";
                 "-v"; "-p"; "22"; "-i"; "key"; "-t"; "ls"; "-la"].
Proof.
  exact (proj2 (proj2 (proj2
    (C8_order_preserved sample_az
       ["-v"; "-p"; "22"] [("-v", EmptyString); ("-p", "22")]
       ["-o"; "ControlPath=x"; "-i"; "key"; "-t"; "host1"; "ls"; "-la"]
       [("-o", "ControlPath=x"); ("-i", "key"); ("-t", EmptyString)]
       "host1" ["ls"; "-la"]
       (parses_to_app ["-v"] _ ["-p"; "22"] _
          (parses_to_cluster "v" eq_refl)
          (parses_to_value_flag "p" "22" eq_refl))
       eq_refl)))).
Defined.

(** ** Extension options outside Arc mode *)

Lemma supplied_app name o1 o2 :
  supplied name (o1 ++ o2) = supplied name o1 || supplied name o2.
Proof. apply existsb_app. Qed.

Lemma mode_dependent_consumed eopts :
  Forall (fun oa => In (fst oa) mode_dependent) eopts ->
  forwarded eopts = [] /\ supplied "--arc" eopts = false.
Proof.
  induction 1 as [|[o a] eopts Ho _ [IHf IHs]]; [now split|].
  unfold forwarded, supplied in *. simpl in *.
  destruct Ho as [<-|[<-|[<-|[]]]]; simpl; now split.
Qed.

Lemma exec_args_without_arc azq o1 eopts o2 destination args :
  supplied "--arc" (o1 ++ o2) = false ->
  Forall (fun oa => In (fst oa) mode_dependent) eopts ->
  exec_args_of azq (locals_of (o1 ++ eopts ++ o2)) destination args =
  exec_args_of azq (locals_of (o1 ++ o2)) destination args.
Proof.
  intros Harc He. destruct (mode_dependent_consumed _ He) as [Hf Hs].
  unfold exec_args_of, mode_tokens.
  rewrite !arc_mode_locals, !ssh_opts_locals, !forwarded_tokens_app.
  rewrite supplied_app in Harc. apply orb_false_iff in Harc.
  destruct Harc as [H1 H2].
  rewrite !supplied_app, H1, H2, Hs. simpl.
  unfold forwarded_tokens at 2. unfold surviving. rewrite Hf. reflexivity.
Qed.

(** C6: when no [--arc] is parsed, putting [--subscription], 
    [--resource-group] or [--local-user] options (in any spelling [getopt]
    accepts, such as the name followed by its value) between complete
    options changes nothing: the run ends the same way, with the same plan
    when there is one. *)
Theorem C6_mode_dependent_options_ignored az pre popts toks eopts rest :
  parses_to pre popts ->
  parses_to toks eopts ->
  Forall (fun oa => In (fst oa) mode_dependent) eopts ->
  arc_given (pre ++ rest) = false ->
  main az (pre ++ toks ++ rest) = main az (pre ++ rest)
  /\ (forall exec_args,
        main az (pre ++ rest) = Execvp "az" exec_args ->
        main az (pre ++ toks ++ rest) = Execvp "az" exec_args).
Proof.
  intros Hpre Htoks He Harc.
  assert (Heq : main az (pre ++ toks ++ rest) = main az (pre ++ rest)).
  { pose proof (parse_after _ _ rest (parses_to_app _ _ _ _ Hpre Htoks)) as H1.
    pose proof (parse_after _ _ rest Hpre) as H2.
    rewrite <- app_assoc in H1.
    unfold arc_given in Harc. rewrite H2 in Harc.
    destruct (parse rest) as [[o [|d args]]|e]; simpl in H1, H2, Harc.
    - rewrite (main_no_destination az _ _ H1).
      now rewrite (main_no_destination az _ _ H2).
    - rewrite (main_execvp az _ _ _ _ H1), (main_execvp az _ _ _ _ H2).
      f_equal. rewrite <- app_assoc. now apply exec_args_without_arc.
    - rewrite (main_getopt_error az _ _ H1).
      now rewrite (main_getopt_error az _ _ H2). }
  split; [exact Heq|]. intros exec_args <-. exact Heq.
Qed.

Lemma C6_mode_dependent_options_ignored_witness :
  main sample_az ["-v"; "--subscription"; "sub1"; "-p"; "22"; "host1"; "ls"]
  = main sample_az ["-v"; "-p"; "22"; "host1"; "ls"].
Proof.
  exact (proj1
    (C6_mode_dependent_options_ignored sample_az
       ["-v"] [("-v", EmptyString)]
       ["--subscription"; "sub1"] [("--subscription", "sub1")]
       ["-p"; "22"; "host1"; "ls"]
       (parses_to_cluster "v" eq_refl)
       (parses_to_mode_dependent "--subscription" "sub1"
          (or_introl eq_refl))
       (Forall_cons (P := fun oa => In (fst oa) mode_dependent)
          ("--subscription", "sub1") (or_introl eq_refl) (Forall_nil _))
       eq_refl)).
Defined.

(** ** Usage errors *)

Lemma usage_error_of_raise az argv e :
  parse argv = Raise e -> usage_error az argv.
Proof.
  intros H. exists (exn_str e). exact (main_getopt_error az _ _ H).
Qed.

Lemma usage_error_of_no_destination az argv opts :
  parse argv = Ok (opts, []) -> usage_error az argv.
Proof.
  intros H. exists "pop from empty list".
  exact (main_no_destination az _ _ H).
Qed.

Lemma parse_after_raise pre popts rest e :
  parses_to pre popts -> parse rest = Raise e ->
  parse (pre ++ rest) = Raise e.
Proof. intros Hpre Hr. now rewrite (parse_after _ _ _ Hpre), Hr. Qed.

Lemma accepted_value_flag_has_arg c :
  occurs c accepted_value_flags = true ->
  Getopt.short_has_arg c options = Ok true.
Proof. each_char c; vm_compute; intros H; (discriminate H || reflexivity). Qed.

Lemma filter_none {A : Type} (f : A -> bool) (l : list A) :
  forallb (fun x => negb (f x)) l = true -> filter f l = [].
Proof.
  induction l as [|x l IH]; simpl; [reflexivity|].
  rewrite andb_true_iff, negb_true_iff. intros [-> Hl]. now apply IH.
Qed.

Lemma parse_unknown_short c tail rest :
  Ascii.eqb c "-" = false ->
  occurs c options = false \/ c = ":"%char ->
  parse (("-" ++ String c tail)%string :: rest) =
  Raise (GetoptError ("option -" ++ str_of_char c ++ " not recognized")
                     (str_of_char c)).
Proof.
  intros Hdash Hc. unfold parse, Getopt.getopt.
  rewrite getopt_from_short by assumption.
  cbn [Getopt.do_shorts]. now rewrite (unknown_char_not_recognized c Hc).
Qed.

Lemma parse_short_without_value c :
  Getopt.short_has_arg c options = Ok true ->
  parse [flag_token c] =
  Raise (GetoptError ("option -" ++ str_of_char c ++ " requires argument")
                     (str_of_char c)).
Proof.
  intros Hc. destruct (value_flag_is_not_no_value c Hc) as [_ Hdash].
  unfold parse, Getopt.getopt, flag_token, str_of_char.
  rewrite getopt_from_short by assumption.
  cbn [Getopt.do_shorts]. now rewrite Hc.
Qed.

Lemma parse_unknown_long name rest :
  String.index 0 "=" name = None ->
  forallb (fun o => negb (startswith o name)) long_options = true ->
  parse (("--" ++ name)%string :: rest) =
  Raise (GetoptError ("option --" ++ name ++ " not recognized") name).
Proof.
  intros Heq Hnone. unfold parse, Getopt.getopt.
  rewrite getopt_from_cons.
  destruct name as [|c name]; [discriminate Hnone|].
  unfold Getopt.is_option, Getopt.getopt_step.
  cbn [String.append startswith String.eqb str_drop Ascii.eqb Bool.eqb
       andb negb].
  unfold Getopt.do_longs. rewrite Heq.
  unfold Getopt.long_has_args. now rewrite (filter_none _ _ Hnone).
Qed.

(** C5: after any run of complete options, the end of the arguments (so,
    no destination), an unknown short or long flag, or a value flag with
    nothing after it makes [main] print an error line and the usage text
    and exit with status 2; this is so for every [GetoptError] and every
    empty list of positional arguments, and no [os.execvp] takes place. *)
Theorem C5_usage_error az pre popts :
  parses_to pre popts ->
  (forall argv e,
      parse argv = Raise e ->
      main az argv = SysExit [("Error: " ++ exn_str e)%string; usage_text] 2)
  /\ (forall argv opts,
      parse argv = Ok (opts, []) ->
      main az argv = SysExit ["Error: pop from empty list"; usage_text] 2)
  /\ usage_error az pre
  /\ usage_error az (pre ++ ["--"])
  /\ (forall c tail rest,
        Ascii.eqb c "-" = false ->
        occurs c options = false \/ c = ":"%char ->
        usage_error az (pre ++ ("-" ++ String c tail)%string :: rest))
  /\ (forall name rest,
        String.index 0 "=" name = None ->
        forallb (fun o => negb (startswith o name)) long_options = true ->
        usage_error az (pre ++ ("--" ++ name)%string :: rest))
  /\ (forall c,
        occurs c accepted_value_flags = true ->
        usage_error az (pre ++ [flag_token c]))
  /\ (forall name,
        In name mode_dependent -> usage_error az (pre ++ [name])).
Proof.
  intros Hpre. repeat split.
  - intros argv e. apply main_getopt_error.
  - intros argv opts. apply main_no_destination.
  - apply usage_error_of_no_destination with (opts := popts).
    rewrite <- (app_nil_r pre) at 1. rewrite (parse_after _ _ _ Hpre).
    unfold parse, Getopt.getopt. rewrite getopt_from_nil. simpl.
    now rewrite app_nil_r.
  - apply usage_error_of_no_destination with (opts := popts).
    rewrite (parse_after _ _ _ Hpre).
    unfold parse, Getopt.getopt. rewrite getopt_from_cons. simpl.
    now rewrite app_nil_r.
  - intros c tail rest Hdash Hc.
    eapply usage_error_of_raise, parse_after_raise; [exact Hpre|].
    now apply parse_unknown_short.
  - intros name rest Heq Hnone.
    eapply usage_error_of_raise, parse_after_raise; [exact Hpre|].
    now apply parse_unknown_long.
  - intros c Hc.
    eapply usage_error_of_raise, parse_after_raise; [exact Hpre|].
    apply parse_short_without_value. now apply accepted_value_flag_has_arg.
  - intros name Hin.
    destruct Hin as [<-|[<-|[<-|[]]]];
      (eapply usage_error_of_raise, parse_after_raise; [exact Hpre|]);
      unfold parse, Getopt.getopt; now rewrite getopt_from_cons.
Qed.

Lemma C5_usage_error_witness :
  usage_error sample_az ["-t"; "-Z"; "host1"]
  /\ usage_error sample_az ["-t"; "-p"]
  /\ usage_error sample_az ["-t"].
Proof.
  pose (H := C5_usage_error sample_az ["-t"] [("-t", EmptyString)]
               (parses_to_cluster "t" eq_refl)).
  split; [|split].
  - exact (proj1 (proj2 (proj2 (proj2 (proj2 H))))
             "Z"%char EmptyString ["host1"] eq_refl (or_introl eq_refl)).
  - exact (proj1 (proj2 (proj2 (proj2 (proj2 (proj2 (proj2 H))))))
             "p"%char eq_refl).
  - exact (proj1 (proj2 (proj2 H))).
Defined.

(** ** Vectors of flags that take no value *)

Lemma flag_options_forwarded flags :
  forwarded_tokens (flag_options flags) = map flag_token flags
  /\ supplied "--arc" (flag_options flags) = false.
Proof.
  unfold forwarded_tokens, surviving, forwarded, supplied.
  induction flags as [|c flags [IHt IHs]]; [now split|].
  cbn [flag_options map filter existsb fst].
  assert (Hext : is_extension (flag_token c) = false)
    by (unfold is_extension, flag_token, str_of_char; simpl;
        now destruct (Ascii.eqb c "-")).
  assert (Harc : String.eqb (flag_token c) "--arc" = false)
    by (unfold flag_token, str_of_char; simpl;
        now destruct (Ascii.eqb c "-")).
  rewrite Hext, Harc. cbn [negb filter orb].
  unfold opt_filter at 1. cbn [fst snd startswith].
  rewrite andb_false_r. cbn [negb flat_map].
  split; [|exact IHs].
  unfold flag_options in IHt. rewrite IHt. reflexivity.
Qed.

(** C3 as the program has it: for one or more tokens made of flags that
    take no value, then a destination, the plan after the subcommand is
    [--name], the destination and, as soon as there is one flag, the
    separator and one token per flag, in the order given; without any flag
    there is no separator. *)
Theorem C3_no_value_flags_are_forwarded az clusters destination :
  forallb no_value_cluster clusters = true ->
  Getopt.is_option destination = false ->
  plan_tokens (main az (map (fun s => ("-" ++ s)%string) clusters
                        ++ [destination]))
  = Some (["--name"; destination]
          ++ match flat_map chars clusters with
             | [] => []
             | c :: flags => "--" :: map flag_token (c :: flags)
             end).
Proof.
  intros Hc Hd.
  rewrite (main_at_destination az _ _ destination []
             (parses_to_clusters _ Hc) Hd).
  destruct (flag_options_forwarded (flat_map chars clusters)) as [Ht Hs].
  unfold mode_tokens. rewrite arc_mode_locals, Hs, Ht.
  unfold passthrough.
  destruct (flat_map chars clusters); simpl; now rewrite ?app_nil_r.
Qed.

Lemma C3_no_value_flags_are_forwarded_witness :
  plan_tokens (main sample_az ["-tv"; "-4"; "host1"])
  = Some ["--name"; "host1"; "--"; "-t"; "-v"; "-4"].
Proof.
  exact (C3_no_value_flags_are_forwarded sample_az ["tv"; "4"] "host1"
           eq_refl eq_refl).
Defined.

(** C3 as stated fails: [-t host1] is made of a flag that takes no value
    and a destination, and its plan has the separator and the token [-t]. *)
Lemma C3_flag_brings_separator :
  forallb no_value_cluster ["t"] = true
  /\ Getopt.is_option "host1" = false
  /\ exists plan,
       plan_tokens (main sample_az ["-t"; "host1"]) = Some plan
       /\ In "--" plan /\ In "-t" plan.
Proof.
  split; [reflexivity|]. split; [reflexivity|].
  exists ["--name"; "host1"; "--"; "-t"].
  split; [reflexivity|]. simpl. tauto.
Qed.

(** ** What [getopt] returns for the grammar of [main] *)

Lemma no_value_flag_token c :
  is_no_value_flag (flag_token c) = occurs c no_value_flags.
Proof. each_char c; vm_compute; reflexivity. Qed.

Lemma long_name_is_not_flag opt :
  is_no_value_flag ("--" ++ opt) = false.
Proof. unfold is_no_value_flag. simpl. reflexivity. Qed.

Lemma Forall_snoc {A : Type} (P : A -> Prop) (l : list A) (x : A) :
  Forall P l -> P x -> Forall P (l ++ [x]).
Proof. intros Hl Hx. apply Forall_app. split; [exact Hl | now constructor]. Qed.

Lemma well_parsed_value_flag c v :
  Getopt.short_has_arg c options = Ok true -> well_parsed (flag_token c, v).
Proof.
  intros Hc. split; [reflexivity|]. cbn [fst].
  rewrite no_value_flag_token.
  destruct (value_flag_is_not_no_value c Hc) as [-> _]. discriminate.
Qed.

Lemma well_parsed_long opt v : well_parsed (("--" ++ opt)%string, v).
Proof.
  split; [reflexivity|]. cbn [fst].
  rewrite long_name_is_not_flag. discriminate.
Qed.

Lemma do_shorts_well_parsed opts optstring args opts' args' :
  Forall well_parsed opts ->
  Getopt.do_shorts opts optstring options args = Ok (opts', args') ->
  Forall well_parsed opts'.
Proof.
  revert opts.
  induction optstring as [|c s IH]; intros opts Hopts;
    cbn [Getopt.do_shorts].
  - now intros [= <- _].
  - destruct (Getopt.short_has_arg c options) as [[|]|e] eqn:Hc;
      cbn [bind]; [| |discriminate].
    + destruct s; [destruct args; [discriminate|]|];
        intros [= <- _]; apply Forall_snoc; trivial;
        now apply well_parsed_value_flag.
    + apply IH. apply Forall_snoc; trivial. now split.
Qed.

Lemma do_longs_well_parsed opts opt args opts' args' :
  Forall well_parsed opts ->
  Getopt.do_longs opts opt long_options args = Ok (opts', args') ->
  Forall well_parsed opts'.
Proof.
  intros Hopts. unfold Getopt.do_longs.
  destruct (String.index 0 "=" opt) as [i|];
    (destruct (Getopt.long_has_args _ long_options) as [[has_arg o]|e];
     cbn [bind]; [|discriminate]);
    (destruct has_arg; [try destruct args|]; cbn [bind]; try discriminate);
    intros [= <- _]; apply Forall_snoc; trivial; apply well_parsed_long.
Qed.

Lemma getopt_from_well_parsed opts args opts' args' :
  Forall well_parsed opts ->
  Getopt.getopt_from options long_options opts args = Ok (opts', args') ->
  Forall well_parsed opts'.
Proof.
  remember (length args) as n eqn:Hn.
  revert opts args Hn.
  induction n as [n IH] using lt_wf_ind; intros opts args Hn Hopts.
  destruct args as [|a rest].
  - rewrite getopt_from_nil. now intros [= <- _].
  - rewrite getopt_from_cons.
    destruct (Getopt.is_option a); [|now intros [= <- _]].
    destruct (String.eqb a "--"); [now intros [= <- _]|].
    destruct (Getopt.getopt_step options long_options opts a rest)
      as [[o r]|e] eqn:Hs; [|discriminate].
    destruct (getopt_step_shorter _ _ _ _ _ _ _ Hs) as (used & -> & _).
    apply (IH (length r)); trivial.
    + subst n. simpl. rewrite length_app. lia.
    + unfold Getopt.getopt_step in Hs. destruct (startswith a "--").
      * exact (do_longs_well_parsed _ _ _ _ _ Hopts Hs).
      * exact (do_shorts_well_parsed _ _ _ _ _ Hopts Hs).
Qed.

Lemma parse_well_parsed argv opts args :
  parse argv = Ok (opts, args) -> Forall well_parsed opts.
Proof. apply getopt_from_well_parsed. constructor. Qed.

(** ** Flattening *)

Lemma truthy_parts_no_empty opts :
  ~ In EmptyString (flat_map truthy_parts opts).
Proof.
  rewrite in_flat_map. intros (opt & _ & Hin).
  unfold truthy_parts in Hin. apply filter_In in Hin.
  now destruct Hin as [_ Hin].
Qed.

Lemma if_set_no_empty name v :
  name <> EmptyString -> ~ In EmptyString (if_set name v).
Proof.
  intros Hname. destruct v as [[|c a]|]; simpl; try tauto.
  intros [H|[H|[]]]; [congruence | discriminate].
Qed.

Lemma mode_tokens_split st destination :
  exists mode_head,
    mode_tokens st destination = mode_head ++ [destination]
    /\ ~ In EmptyString mode_head.
Proof.
  unfold mode_tokens. destruct (arc_mode st).
  - exists (["arc"] ++ if_set "--subscription" (subscription st)
            ++ if_set "--resource-group" (resource_group st)
            ++ if_set "--local-user" (local_user st) ++ ["--name"]).
    split; [now rewrite <- !app_assoc|].
    rewrite !in_app_iff. intros [H|[H|[H|[H|H]]]].
    + now destruct H.
    + revert H. now apply if_set_no_empty.
    + revert H. now apply if_set_no_empty.
    + revert H. now apply if_set_no_empty.
    + now destruct H.
  - exists ["--name"]. split; [reflexivity|]. now intros [H|[]].
Qed.

(** C7 as the program has it: every surviving option that is a flag
    without value gives exactly one token, its name; every surviving option
    with a non-empty value gives exactly two, the name then the value; and
    no token of the plan is empty apart from the destination and the
    positional arguments after it, which are passed on as they are. *)
Theorem C7_flattening az argv opts destination args :
  parse argv = Ok (opts, destination :: args) ->
  (forall opt, In opt (surviving opts) ->
     (is_no_value_flag (fst opt) = true -> truthy_parts opt = [fst opt])
     /\ (snd opt <> EmptyString -> truthy_parts opt = [fst opt; snd opt]))
  /\ exists head sep,
       main az argv =
         Execvp "az" (head ++ [destination] ++ sep
                      ++ flat_map truthy_parts (surviving opts) ++ args)
       /\ ~ In EmptyString head
       /\ ~ In EmptyString sep
       /\ ~ In EmptyString (flat_map truthy_parts (surviving opts)).
Proof.
  intros Hparse. split.
  - intros [o a] Hin.
    assert (Hwp : well_parsed (o, a)).
    { pose proof (parse_well_parsed _ _ _ Hparse) as Hall.
      rewrite Forall_forall in Hall. apply Hall.
      unfold surviving, forwarded in Hin.
      now apply filter_In, proj1, filter_In, proj1 in Hin. }
    destruct Hwp as [Hname Hvalue]. cbn [fst snd] in *.
    unfold truthy_parts. cbn [fst snd filter]. rewrite Hname. split.
    + intros Hflag. now rewrite (Hvalue Hflag).
    + intros Ha. destruct a; [congruence | reflexivity].
  - rewrite (main_execvp az _ _ _ _ Hparse). unfold exec_args_of.
    rewrite ssh_opts_locals. fold (forwarded_tokens opts).
    destruct (mode_tokens_split (locals_of opts) destination)
      as (mode_head & -> & Hhead).
    exists ([quoted_az_path az; "ssh"] ++ mode_head).
    exists (if nonempty (forwarded_tokens opts) || nonempty args
            then ["--"] else []).
    repeat split.
    + f_equal. unfold passthrough. rewrite <- !app_assoc. simpl.
      do 2 f_equal.
      destruct (nonempty (forwarded_tokens opts)) eqn:Hf;
        destruct (nonempty args) eqn:Ha; simpl; trivial.
      destruct (forwarded_tokens opts); [|discriminate].
      now destruct args.
    + rewrite in_app_iff. intros [[H|[H|[]]]|H]; try discriminate.
      now apply Hhead.
    + destruct (nonempty _ || nonempty _); simpl; [|tauto].
      now intros [H|[]].
    + apply truthy_parts_no_empty.
Qed.

Lemma C7_flattening_witness :
  exists head sep,
    main sample_az ["-t"; "-p"; "22"; "host1"; "ls"] =
      Execvp "az" (head ++ ["host1"] ++ sep
                   ++ flat_map truthy_parts
                        (surviving [("-t", EmptyString); ("-p", "22")])
                   ++ ["ls"])
    /\ ~ In EmptyString head
    /\ ~ In EmptyString sep
    /\ ~ In EmptyString
         (flat_map truthy_parts
            (surviving [("-t", EmptyString); ("-p", "22")])).
Proof.
  exact (proj2 (C7_flattening sample_az ["-t"; "-p"; "22"; "host1"; "ls"]
                  [("-t", EmptyString); ("-p", "22")] "host1" ["ls"]
                  eq_refl)).
Defined.

(** C7 as stated fails: an empty positional argument is passed on, so the
    plan of [host1 ''] ends with an empty token. *)
Lemma C7_empty_argument_is_forwarded :
  main sample_az ["host1"; EmptyString]
  = Execvp "az" [quoted_az_path sample_az; "ssh"; "--name"; "host1"; "--";
                 EmptyString]
  /\ In EmptyString [quoted_az_path sample_az; "ssh"; "--name"; "host1";
                     "--"; EmptyString].
Proof. split; [reflexivity | simpl; tauto]. Qed.

(** ** Arc mode *)

(** C9 as the program has it: when [--arc] is among the parsed options,
    the plan after the subcommand is [arc], then [--subscription],
    [--resource-group] and [--local-user], in this order, each with the
    value given last and only when that value is not empty, then [--name]
    and the destination, then what is passed through; the example of the
    claim gives the plan the claim states. *)
Theorem C9_arc_mode_plan az argv opts destination args :
  parse argv = Ok (opts, destination :: args) ->
  supplied "--arc" opts = true ->
  plan_tokens (main az argv)
  = Some (["arc"]
          ++ if_set "--subscription" (last_value "--subscription" opts)
          ++ if_set "--resource-group" (last_value "--resource-group" opts)
          ++ if_set "--local-user" (last_value "--local-user" opts)
          ++ ["--name"; destination]
          ++ passthrough (forwarded_tokens opts) args)
  /\ plan_tokens
       (main az ["--arc"; "--subscription"; "sub1"; "--resource-group";
                 "rg1"; "--local-user"; "admin"; "server1"])
     = Some ["arc"; "--subscription"; "sub1"; "--resource-group"; "rg1";
             "--local-user"; "admin"; "--name"; "server1"].
Proof.
  intros Hparse Harc. split; [|reflexivity].
  rewrite (main_execvp az _ _ _ _ Hparse).
  unfold exec_args_of, mode_tokens, plan_tokens.
  rewrite arc_mode_locals, Harc, ssh_opts_locals.
  rewrite subscription_locals, resource_group_locals, local_user_locals.
  cbn [app skipn]. now rewrite <- !app_assoc.
Qed.

Lemma C9_arc_mode_plan_witness :
  plan_tokens
    (main sample_az ["--local-user"; "admin"; "--arc"; "--subscription";
                     "old"; "--subscription"; "sub1"; "server1"; "uptime"])
  = Some ["arc"; "--subscription"; "sub1"; "--local-user"; "admin";
          "--name"; "server1"; "--"; "uptime"].
Proof.
  exact (proj1
    (C9_arc_mode_plan sample_az
       ["--local-user"; "admin"; "--arc"; "--subscription"; "old";
        "--subscription"; "sub1"; "server1"; "uptime"]
       [("--local-user", "admin"); ("--arc", EmptyString);
        ("--subscription", "old"); ("--subscription", "sub1")]
       "server1" ["uptime"] eq_refl eq_refl)).
Defined.

(** C9 as stated fails: with [--arc --subscription '' server1] the
    subscription option is supplied, and the plan has no [--subscription]
    pair. *)
Lemma C9_empty_value_gives_no_pair :
  parse ["--arc"; "--subscription"; EmptyString; "server1"]
  = Ok ([("--arc", EmptyString); ("--subscription", EmptyString)],
        ["server1"])
  /\ plan_tokens
       (main sample_az ["--arc"; "--subscription"; EmptyString; "server1"])
     = Some ["arc"; "--name"; "server1"].
Proof. split; reflexivity. Qed.

(** ** What the plan takes from the parsed options *)

Lemma find_app {A : Type} (f : A -> bool) (l1 l2 : list A) :
  find f (l1 ++ l2) = or_else (find f l1) (find f l2).
Proof.
  induction l1 as [|x l1 IH]; simpl; [reflexivity|].
  now destruct (f x).
Qed.

Lemma last_value_app name a b :
  last_value name (a ++ b) = or_else (last_value name b) (last_value name a).
Proof.
  unfold last_value. rewrite rev_app_distr, find_app.
  now destruct (find (fun oa => String.eqb (fst oa) name) (rev b)).
Qed.

Lemma view_of_app a b : view (a ++ b) = view_app (view a) (view b).
Proof.
  unfold view, view_app.
  now rewrite supplied_app, !last_value_app, forwarded_tokens_app.
Qed.

Lemma exec_args_of_view azq o o' destination args :
  view o = view o' ->
  exec_args_of azq (locals_of o) destination args =
  exec_args_of azq (locals_of o') destination args.
Proof.
  unfold view. intros [= Harc Hsub Hrg Hlu Htoks].
  unfold exec_args_of, mode_tokens.
  rewrite !arc_mode_locals, !ssh_opts_locals, !subscription_locals,
    !resource_group_locals, !local_user_locals.
  now rewrite Harc, Hsub, Hrg, Hlu, Htoks.
Qed.

(** Two runs of tokens with the same view can stand for each other
    between complete options. *)
Lemma main_replace az pre popts toks1 o1 toks2 o2 rest :
  parses_to pre popts ->
  parses_to toks1 o1 ->
  parses_to toks2 o2 ->
  view o1 = view o2 ->
  main az (pre ++ toks1 ++ rest) = main az (pre ++ toks2 ++ rest).
Proof.
  intros Hpre H1 H2 Hview.
  pose proof (parse_after _ _ rest (parses_to_app _ _ _ _ Hpre H1)) as P1.
  pose proof (parse_after _ _ rest (parses_to_app _ _ _ _ Hpre H2)) as P2.
  rewrite <- app_assoc in P1, P2.
  destruct (parse rest) as [[o [|d args]]|e]; simpl in P1, P2.
  - rewrite (main_no_destination az _ _ P1).
    now rewrite (main_no_destination az _ _ P2).
  - rewrite (main_execvp az _ _ _ _ P1), (main_execvp az _ _ _ _ P2).
    f_equal. apply exec_args_of_view.
    rewrite <- !app_assoc, !(view_of_app popts), !(view_of_app _ o).
    now rewrite Hview.
  - rewrite (main_getopt_error az _ _ P1).
    now rewrite (main_getopt_error az _ _ P2).
Qed.

(** ** The terminator *)

Lemma parse_terminator rest : parse ("--" :: rest) = Ok ([], rest).
Proof. unfold parse, Getopt.getopt. now rewrite getopt_from_cons. Qed.

(** X1: [--] ends the options and is itself dropped: the token after it is
    the destination even when it starts with a dash, what follows is passed
    through, and before a destination that is no option the terminator
    changes nothing. *)
Theorem X1_terminator_ends_options az pre popts d rest :
  parses_to pre popts ->
  main az (pre ++ "--" :: d :: rest) =
    Execvp "az" ([quoted_az_path az; "ssh"]
                 ++ mode_tokens (locals_of popts) d
                 ++ passthrough (forwarded_tokens popts) rest)
  /\ (Getopt.is_option d = false ->
      main az (pre ++ "--" :: d :: rest) = main az (pre ++ d :: rest)).
Proof.
  intros Hpre.
  assert (Hparse : parse (pre ++ "--" :: d :: rest) = Ok (popts, d :: rest)).
  { rewrite (parse_after _ _ _ Hpre), parse_terminator. simpl.
    now rewrite app_nil_r. }
  assert (Hmain : main az (pre ++ "--" :: d :: rest) =
            Execvp "az" ([quoted_az_path az; "ssh"]
                         ++ mode_tokens (locals_of popts) d
                         ++ passthrough (forwarded_tokens popts) rest)).
  { rewrite (main_execvp az _ _ _ _ Hparse). unfold exec_args_of.
    now rewrite ssh_opts_locals. }
  split; [exact Hmain|].
  intros Hd. rewrite Hmain. symmetry. now apply main_at_destination.
Qed.

Lemma X1_terminator_ends_options_witness :
  main sample_az ["-t"; "--"; "-host"; "-v"]
  = Execvp "az" [quoted_az_path sample_az; "ssh"; "--name"; "-host"; "--";
                 "-t"; "-v"].
Proof.
  exact (proj1 (X1_terminator_ends_options sample_az
                  ["-t"] [("-t", EmptyString)] "-host" ["-v"]
                  (parses_to_cluster "t" eq_refl))).
Defined.

(** ** Spellings of short options *)

Lemma parses_to_flags flags :
  forallb (fun c => occurs c no_value_flags) flags = true ->
  parses_to (map flag_token flags) (flag_options flags).
Proof.
  induction flags as [|c flags IH]; simpl.
  - intros _. apply parses_to_nil.
  - rewrite andb_true_iff. intros [Hc Hrest].
    apply (parses_to_app [flag_token c] [(flag_token c, EmptyString)]
             _ _); [|exact (IH Hrest)].
    apply (parses_to_cluster (str_of_char c)).
    unfold no_value_cluster. simpl. now rewrite Hc.
Qed.

(** X2: a token of several flags that take no value stands for its flags
    given one by one: the run ends the same way. *)
Theorem X2_cluster_is_its_flags az pre popts cluster rest :
  parses_to pre popts ->
  no_value_cluster cluster = true ->
  main az (pre ++ ("-" ++ cluster)%string :: rest) =
  main az (pre ++ map flag_token (chars cluster) ++ rest).
Proof.
  intros Hpre Hc.
  apply (main_replace az pre popts [("-" ++ cluster)%string]
           (flag_options (chars cluster))
           (map flag_token (chars cluster))
           (flag_options (chars cluster)) rest Hpre); trivial.
  - now apply parses_to_cluster.
  - apply parses_to_flags. unfold no_value_cluster in Hc.
    now apply andb_true_iff in Hc.
Qed.

Lemma X2_cluster_is_its_flags_witness :
  main sample_az ["-4"; "-tvv"; "host1"]
  = main sample_az ["-4"; "-t"; "-v"; "-v"; "host1"].
Proof.
  exact (X2_cluster_is_its_flags sample_az ["-4"] [("-4", EmptyString)]
           "tvv" ["host1"] (parses_to_cluster "4" eq_refl) eq_refl).
Defined.

Lemma do_shorts_cluster_value opts cluster c v args :
  forallb (fun x => occurs x no_value_flags) (chars cluster) = true ->
  Getopt.short_has_arg c options = Ok true ->
  v <> EmptyString ->
  Getopt.do_shorts opts (cluster ++ String c v) options args =
  Ok (opts ++ flag_options (chars cluster) ++ [(flag_token c, v)], args).
Proof.
  intros Hall Hc Hv. revert opts Hall.
  induction cluster as [|x s IH]; intros opts Hall.
  - cbn [String.append Getopt.do_shorts]. rewrite Hc. cbn [bind].
    destruct v; [congruence | reflexivity].
  - cbn [chars list_ascii_of_string forallb] in Hall.
    apply andb_true_iff in Hall. destruct Hall as [Hx Hs].
    cbn [String.append Getopt.do_shorts].
    destruct (no_value_flag_has_no_arg x Hx) as [-> _]. cbn [bind].
    rewrite (IH _ Hs). cbn [chars list_ascii_of_string flag_options map].
    now rewrite <- app_assoc.
Qed.

Lemma parses_to_cluster_value cluster c v :
  forallb (fun x => occurs x no_value_flags) (chars cluster) = true ->
  Getopt.short_has_arg c options = Ok true ->
  v <> EmptyString ->
  parses_to [("-" ++ cluster ++ String c v)%string]
            (flag_options (chars cluster) ++ [(flag_token c, v)]).
Proof.
  intros Hall Hc Hv opts rest. cbn [app].
  assert (Hdash : exists x s, (cluster ++ String c v)%string = String x s
                              /\ Ascii.eqb x "-" = false).
  { destruct cluster as [|x s].
    - exists c, v. split; [reflexivity|].
      now destruct (value_flag_is_not_no_value c Hc).
    - exists x, (s ++ String c v)%string. split; [reflexivity|].
      cbn [chars list_ascii_of_string forallb] in Hall.
      apply andb_true_iff in Hall. destruct Hall as [Hx _].
      now destruct (no_value_flag_has_no_arg x Hx). }
  destruct Hdash as (x & s & Heq & Hx).
  change (("-" ++ cluster ++ String c v)%string)
    with (String "-" (cluster ++ String c v)).
  rewrite Heq.
  change (String "-" (String x s)) with (("-" ++ String x s)%string).
  rewrite getopt_from_short by assumption.
  rewrite <- Heq, (do_shorts_cluster_value opts cluster c v rest Hall Hc Hv).
  reflexivity.
Qed.

(** X3: a value written in the same token as its flag, after any flags
    without value, is read as if each flag and the value were given as
    separate tokens. *)
Theorem X3_attached_value az pre popts cluster c v rest :
  parses_to pre popts ->
  forallb (fun x => occurs x no_value_flags) (chars cluster) = true ->
  occurs c accepted_value_flags = true ->
  v <> EmptyString ->
  main az (pre ++ ("-" ++ cluster ++ String c v)%string :: rest) =
  main az (pre ++ map flag_token (chars cluster)
               ++ flag_token c :: v :: rest).
Proof.
  intros Hpre Hall Hc Hv.
  apply accepted_value_flag_has_arg in Hc.
  pose proof (main_replace az pre popts
                [("-" ++ cluster ++ String c v)%string]
                (flag_options (chars cluster) ++ [(flag_token c, v)])
                (map flag_token (chars cluster) ++ [flag_token c; v])
                (flag_options (chars cluster) ++ [(flag_token c, v)])
                rest Hpre
                (parses_to_cluster_value cluster c v Hall Hc Hv)
                (parses_to_app _ _ _ _ (parses_to_flags _ Hall)
                   (parses_to_value_flag c v Hc))
                eq_refl) as H.
  rewrite <- (app_assoc (map flag_token (chars cluster))) in H.
  exact H.
Qed.

Lemma X3_attached_value_witness :
  main sample_az ["-tvp2222"; "host1"]
  = main sample_az ["-t"; "-v"; "-p"; "2222"; "host1"].
Proof.
  refine (X3_attached_value sample_az [] [] "tv" "p"%char "2222" ["host1"]
            parses_to_nil eq_refl eq_refl _).
  discriminate.
Defined.

(** X4: the token after one of the twenty flags that [options] gives a
    value is that value, whatever it looks like (another flag, the
    terminator, the empty string); parsing goes on after it. *)
Theorem X4_value_flag_takes_next_token pre popts c v rest :
  parses_to pre popts ->
  occurs c accepted_value_flags = true ->
  parse (pre ++ flag_token c :: v :: rest)
  = with_parsed (popts ++ [(flag_token c, v)]) (parse rest).
Proof.
  intros Hpre Hc. apply accepted_value_flag_has_arg in Hc.
  pose proof (parse_after _ _ rest
                (parses_to_app _ _ _ _ Hpre (parses_to_value_flag c v Hc)))
    as H.
  now rewrite <- app_assoc in H.
Qed.

Lemma X4_value_flag_takes_next_token_witness :
  parse ["-t"; "-p"; "--"; "-v"; "host1"]
  = with_parsed [("-t", EmptyString); ("-p", "--")] (parse ["-v"; "host1"]).
Proof.
  exact (X4_value_flag_takes_next_token ["-t"] [("-t", EmptyString)]
           "p"%char "--" ["-v"; "host1"]
           (parses_to_cluster "t" eq_refl) eq_refl).
Defined.

(** ** Spellings of long options *)

Lemma substring_all s : String.substring 0 (String.length s) s = s.
Proof. induction s as [|c s IH]; simpl; [reflexivity | now rewrite IH]. Qed.

Lemma startswith_prefixes s p : startswith s p = true -> In p (prefixes s).
Proof.
  revert s. induction p as [|c p IH]; intros s; simpl.
  - intros _. destruct s; simpl; now left.
  - destruct s as [|d s]; [discriminate|].
    rewrite andb_true_iff. intros [Hc Hp].
    apply Ascii.eqb_eq in Hc. subst d. simpl. right.
    apply in_map. now apply IH.
Qed.

(** The loop on a token that starts with two dashes and goes on. *)
Lemma getopt_from_long c q opts rest :
  Getopt.getopt_from options long_options opts
                     (("--" ++ String c q)%string :: rest) =
  match Getopt.do_longs opts (String c q) long_options rest with
  | Ok (opts', args') => Getopt.getopt_from options long_options opts' args'
  | Raise e => Raise e
  end.
Proof.
  rewrite getopt_from_cons.
  unfold Getopt.is_option, Getopt.getopt_step.
  set (shorts := Getopt.do_shorts _ _ _ _).
  set (longs := Getopt.do_longs _ _ _ _).
  reflexivity.
Qed.

Lemma do_longs_spellings opts long p v args :
  In long valued_long_names ->
  p <> EmptyString ->
  startswith long p = true ->
  Getopt.do_longs opts p long_options (v :: args)
    = Ok (opts ++ [(("--" ++ long)%string, v)], args)
  /\ Getopt.do_longs opts (p ++ "=" ++ v) long_options args
    = Ok (opts ++ [(("--" ++ long)%string, v)], args).
Proof.
  intros Hlong Hp Hpre. apply startswith_prefixes in Hpre.
  destruct Hlong as [<-|[<-|[<-|[]]]]; simpl in Hpre;
    repeat (destruct Hpre as [<-|Hpre]; [try congruence|]);
    try contradiction;
    (split; [reflexivity|]);
    destruct v; cbn; rewrite ?substring_all; reflexivity.
Qed.

Lemma parses_to_long_spellings long p v :
  In long valued_long_names ->
  p <> EmptyString ->
  startswith long p = true ->
  parses_to [("--" ++ p)%string; v] [(("--" ++ long)%string, v)]
  /\ parses_to [("--" ++ p ++ "=" ++ v)%string] [(("--" ++ long)%string, v)].
Proof.
  intros Hlong Hp Hpre.
  destruct p as [|c q]; [congruence|].
  split; intros opts rest; cbn [app].
  - rewrite getopt_from_long.
    now rewrite (proj1 (do_longs_spellings opts long (String c q) v rest
                          Hlong Hp Hpre)).
  - change (("--" ++ String c q ++ "=" ++ v)%string)
      with (("--" ++ String c (q ++ "=" ++ v))%string).
    rewrite getopt_from_long.
    change (String c (q ++ "=" ++ v)) with ((String c q ++ "=" ++ v)%string).
    now rewrite (proj2 (do_longs_spellings opts long (String c q) v rest
                          Hlong Hp Hpre)).
Qed.

Lemma parses_to_arc_prefix p :
  p <> EmptyString ->
  startswith "arc" p = true ->
  parses_to [("--" ++ p)%string] [("--arc", EmptyString)].
Proof.
  intros Hp Hpre. apply startswith_prefixes in Hpre. simpl in Hpre.
  intros opts rest. cbn [app].
  repeat (destruct Hpre as [<-|Hpre]; [try congruence|]);
    try contradiction;
    now rewrite getopt_from_long.
Qed.

(** X5: a long option may be cut down to any non-empty prefix of its
    name, and its value may follow in the next token or after [=] in the
    same token: the run ends the same way as with the full name and the
    value in the next token. *)
Theorem X5_long_option_spellings az pre popts long p v rest :
  parses_to pre popts ->
  In long valued_long_names ->
  p <> EmptyString ->
  startswith long p = true ->
  main az (pre ++ ("--" ++ p)%string :: v :: rest)
    = main az (pre ++ ("--" ++ long)%string :: v :: rest)
  /\ main az (pre ++ ("--" ++ p ++ "=" ++ v)%string :: rest)
    = main az (pre ++ ("--" ++ long)%string :: v :: rest)
  /\ (forall q, q <> EmptyString -> startswith "arc" q = true ->
        main az (pre ++ ("--" ++ q)%string :: rest)
        = main az (pre ++ "--arc" :: rest)).
Proof.
  intros Hpre Hlong Hp Hstart.
  assert (Hfull : parses_to [("--" ++ long)%string; v]
                            [(("--" ++ long)%string, v)]).
  { apply parses_to_mode_dependent.
    destruct Hlong as [<-|[<-|[<-|[]]]]; simpl; tauto. }
  destruct (parses_to_long_spellings long p v Hlong Hp Hstart) as [H1 H2].
  split; [|split].
  - exact (main_replace az pre popts _ _ _ _ rest Hpre H1 Hfull eq_refl).
  - exact (main_replace az pre popts _ _ _ _ rest Hpre H2 Hfull eq_refl).
  - intros q Hq Hqa.
    exact (main_replace az pre popts _ _ _ _ rest Hpre
             (parses_to_arc_prefix q Hq Hqa) parses_to_arc eq_refl).
Qed.

Lemma X5_long_option_spellings_witness :
  main sample_az ["--a"; "--res"; "rg1"; "host1"]
  = main sample_az ["--a"; "--resource-group"; "rg1"; "host1"].
Proof.
  refine (proj1 (X5_long_option_spellings sample_az
                   ["--a"] [("--arc", EmptyString)] "resource-group" "res"
                   "rg1" ["host1"]
                   (parses_to_arc_prefix "a" _ eq_refl)
                   (or_intror (or_introl eq_refl)) _ eq_refl));
    discriminate.
Defined.

(** ** Options that leave no trace *)

(** X6: an [-o] option whose value starts with [Control], with the value
    in the next token or in the same one, leaves no trace: the run ends as
    if the option were not there. *)
Theorem X6_control_option_leaves_no_trace az pre popts x rest :
  parses_to pre popts ->
  main az (pre ++ "-o" :: ("Control" ++ x)%string :: rest)
    = main az (pre ++ rest)
  /\ main az (pre ++ ("-oControl" ++ x)%string :: rest)
    = main az (pre ++ rest).
Proof.
  intros Hpre. split.
  - exact (main_replace az pre popts
             ["-o"; ("Control" ++ x)%string]
             [("-o", ("Control" ++ x)%string)] [] [] rest Hpre
             (parses_to_value_flag "o" _ eq_refl) parses_to_nil eq_refl).
  - refine (main_replace az pre popts
              [("-oControl" ++ x)%string]
              [("-o", ("Control" ++ x)%string)] [] [] rest Hpre
              (parses_to_cluster_value EmptyString "o" ("Control" ++ x)
                 eq_refl eq_refl _)
              parses_to_nil eq_refl).
    discriminate.
Qed.

Lemma X6_control_option_leaves_no_trace_witness :
  main sample_az ["-v"; "-o"; "ControlPersist=60s"; "host1"]
  = main sample_az ["-v"; "host1"].
Proof.
  exact (proj1 (X6_control_option_leaves_no_trace sample_az
                  ["-v"] [("-v", EmptyString)] "Persist=60s" ["host1"]
                  (parses_to_cluster "v" eq_refl))).
Defined.

(** ** Where extension options stand *)

Lemma or_else_none {A : Type} (x : option A) : or_else x None = x.
Proof. now destruct x. Qed.

Lemma last_value_not_supplied name opts :
  supplied name opts = false -> last_value name opts = None.
Proof.
  unfold supplied, last_value. intros Hs.
  destruct (find (fun oa => String.eqb (fst oa) name) (rev opts))
    as [oa|] eqn:Hf; [|reflexivity].
  apply find_some in Hf. destruct Hf as [Hin Hoa].
  apply in_rev in Hin.
  assert (Hex : existsb (fun oa => String.eqb (fst oa) name) opts = true)
    by (apply existsb_exists; now exists oa).
  congruence.
Qed.

Lemma last_value_supplied name opts :
  supplied name opts = true -> exists v, last_value name opts = Some v.
Proof.
  unfold supplied, last_value. intros Hs.
  apply existsb_exists in Hs. destruct Hs as (oa & Hin & Hoa).
  destruct (find (fun oa => String.eqb (fst oa) name) (rev opts))
    as [ob|] eqn:Hf; [now exists (snd ob)|].
  apply in_rev in Hin.
  pose proof (find_none _ _ Hf oa Hin) as Hno. simpl in Hno. congruence.
Qed.

Lemma extension_not_among_forwarded name fopts :
  is_extension name = true ->
  Forall (fun oa => is_extension (fst oa) = false) fopts ->
  supplied name fopts = false.
Proof.
  intros Hname. unfold supplied.
  induction 1 as [|[o a] fopts Ho _ IH]; simpl; [reflexivity|].
  rewrite IH, orb_false_r.
  destruct (String.eqb_spec o name) as [->|]; [|reflexivity].
  simpl in Ho. congruence.
Qed.

Lemma extensions_give_no_tokens eopts :
  Forall (fun oa => is_extension (fst oa) = true) eopts ->
  forwarded_tokens eopts = [].
Proof.
  unfold forwarded_tokens, surviving, forwarded.
  induction 1 as [|oa eopts Ho _ IH]; simpl; [reflexivity|].
  rewrite Ho. simpl. exact IH.
Qed.

Lemma view_commutes eopts fopts :
  Forall (fun oa => is_extension (fst oa) = true) eopts ->
  Forall (fun oa => is_extension (fst oa) = false) fopts ->
  view (eopts ++ fopts) = view (fopts ++ eopts).
Proof.
  intros He Hf. rewrite !view_of_app. unfold view, view_app.
  rewrite (extensions_give_no_tokens _ He).
  rewrite (extension_not_among_forwarded "--arc" _ eq_refl Hf).
  rewrite (last_value_not_supplied _ _
             (extension_not_among_forwarded "--subscription" _ eq_refl Hf)).
  rewrite (last_value_not_supplied _ _
             (extension_not_among_forwarded "--resource-group" _ eq_refl Hf)).
  rewrite (last_value_not_supplied _ _
             (extension_not_among_forwarded "--local-user" _ eq_refl Hf)).
  now rewrite !or_else_none, orb_false_r, app_nil_r.
Qed.

(** X7: where the extension options stand among the other options does
    not matter: a run of extension options and a run of other options can
    change places, and the run ends the same way. *)
Theorem X7_extension_options_commute az pre popts etoks eopts ftoks fopts
    rest :
  parses_to pre popts ->
  parses_to etoks eopts ->
  parses_to ftoks fopts ->
  Forall (fun oa => is_extension (fst oa) = true) eopts ->
  Forall (fun oa => is_extension (fst oa) = false) fopts ->
  main az (pre ++ etoks ++ ftoks ++ rest)
  = main az (pre ++ ftoks ++ etoks ++ rest).
Proof.
  intros Hpre He Hf Hext Hfwd.
  pose proof (main_replace az pre popts (etoks ++ ftoks) (eopts ++ fopts)
                (ftoks ++ etoks) (fopts ++ eopts) rest Hpre
                (parses_to_app _ _ _ _ He Hf) (parses_to_app _ _ _ _ Hf He)
                (view_commutes _ _ Hext Hfwd)) as H.
  now rewrite <- !app_assoc in H.
Qed.

Lemma X7_extension_options_commute_witness :
  main sample_az ["--arc"; "--local-user"; "admin"; "-p"; "22"; "host1"]
  = main sample_az ["--arc"; "-p"; "22"; "--local-user"; "admin"; "host1"].
Proof.
  exact (X7_extension_options_commute sample_az
           ["--arc"] [("--arc", EmptyString)]
           ["--local-user"; "admin"] [("--local-user", "admin")]
           ["-p"; "22"] [("-p", "22")] ["host1"]
           parses_to_arc
           (parses_to_mode_dependent "--local-user" "admin"
              (or_intror (or_intror (or_introl eq_refl))))
           (parses_to_value_flag "p" "22" eq_refl)
           (Forall_cons (P := fun oa => is_extension (fst oa) = true)
              ("--local-user", "admin") eq_refl (Forall_nil _))
           (Forall_cons (P := fun oa => is_extension (fst oa) = false)
              ("-p", "22") eq_refl (Forall_nil _))).
Defined.

(** X8: of two occurrences of [--subscription], [--resource-group] or
    [--local-user] the later one decides: an occurrence that is followed,
    among the options, by another one of the same name can be left out. *)
Theorem X8_last_value_wins az pre popts name v mid mopts rest :
  parses_to pre popts ->
  In name mode_dependent ->
  parses_to mid mopts ->
  supplied name mopts = true ->
  main az (pre ++ name :: v :: mid ++ rest) = main az (pre ++ mid ++ rest).
Proof.
  intros Hpre Hname Hmid Hs.
  pose proof (main_replace az pre popts ([name; v] ++ mid)
                ([(name, v)] ++ mopts) mid mopts rest Hpre
                (parses_to_app _ _ _ _
                   (parses_to_mode_dependent name v Hname) Hmid)
                Hmid) as H.
  rewrite <- app_assoc in H. apply H.
  rewrite view_of_app.
  destruct (last_value_supplied _ _ Hs) as [w Hw].
  assert (Hone : forall n, n <> name ->
                   last_value n [(name, v)] = None).
  { intros n Hn. unfold last_value. simpl.
    destruct (String.eqb_spec name n); [congruence | reflexivity]. }
  assert (Harc : supplied "--arc" [(name, v)] = false
                 /\ forwarded_tokens [(name, v)] = []).
  { destruct Hname as [<-|[<-|[<-|[]]]]; now split. }
  destruct Harc as [Harc Htoks].
  unfold view, view_app. rewrite Harc, Htoks. cbn [orb app].
  destruct Hname as [<-|[<-|[<-|[]]]];
    rewrite Hw; cbn [or_else]; rewrite !Hone, ?or_else_none by discriminate;
    reflexivity.
Qed.

Lemma X8_last_value_wins_witness :
  main sample_az ["--arc"; "--subscription"; "old"; "-v"; "--subscription";
                  "new"; "host1"]
  = main sample_az ["--arc"; "-v"; "--subscription"; "new"; "host1"].
Proof.
  exact (X8_last_value_wins sample_az
           ["--arc"] [("--arc", EmptyString)] "--subscription" "old"
           ["-v"; "--subscription"; "new"]
           [("-v", EmptyString); ("--subscription", "new")] ["host1"]
           parses_to_arc (or_introl eq_refl)
           (parses_to_app ["-v"] _ ["--subscription"; "new"] _
              (parses_to_cluster "v" eq_refl)
              (parses_to_mode_dependent "--subscription" "new"
                 (or_introl eq_refl)))
           eq_refl).
Defined.

(** X9: [--arc] given again changes nothing. *)
Theorem X9_arc_given_twice az pre popts mid mopts rest :
  parses_to pre popts ->
  parses_to mid mopts ->
  main az (pre ++ "--arc" :: mid ++ "--arc" :: rest)
  = main az (pre ++ "--arc" :: mid ++ rest).
Proof.
  intros Hpre Hmid.
  pose proof (main_replace az pre popts (["--arc"] ++ mid ++ ["--arc"])
                ([("--arc", EmptyString)] ++ mopts
                 ++ [("--arc", EmptyString)])
                (["--arc"] ++ mid) ([("--arc", EmptyString)] ++ mopts)
                rest Hpre
                (parses_to_app _ _ _ _ parses_to_arc
                   (parses_to_app _ _ _ _ Hmid parses_to_arc))
                (parses_to_app _ _ _ _ parses_to_arc Hmid)) as H.
  rewrite <- !app_assoc in H. apply H.
  rewrite !view_of_app.
  change (view [("--arc", EmptyString)]) with (true, @None string,
    @None string, @None string, @nil string).
  destruct (view mopts) as [[[[arc sub] rg] lu] toks].
  unfold view_app. cbn [orb app or_else].
  now rewrite !or_else_none, app_nil_r.
Qed.

Lemma X9_arc_given_twice_witness :
  main sample_az ["-v"; "--arc"; "-t"; "--arc"; "host1"]
  = main sample_az ["-v"; "--arc"; "-t"; "host1"].
Proof.
  exact (X9_arc_given_twice sample_az ["-v"] [("-v", EmptyString)]
           ["-t"] [("-t", EmptyString)] ["host1"]
           (parses_to_cluster "v" eq_refl) (parses_to_cluster "t" eq_refl)).
Defined.

(** ** The separator *)

Lemma surviving_are_parsed opts opt :
  In opt (surviving opts) -> In opt opts.
Proof.
  unfold surviving, forwarded. intros Hin.
  now apply filter_In, proj1, filter_In, proj1 in Hin.
Qed.

Lemma forwarded_tokens_nil opts :
  Forall well_parsed opts ->
  forwarded_tokens opts = [] -> surviving opts = [].
Proof.
  intros Hwp. unfold forwarded_tokens.
  pose proof (surviving_are_parsed opts) as Hsub.
  destruct (surviving opts) as [|[o a] l]; [reflexivity|].
  rewrite Forall_forall in Hwp.
  destruct (Hwp (o, a) (Hsub _ (or_introl eq_refl))) as [Hname _].
  simpl in Hname. simpl. unfold truthy_parts at 1. simpl.
  rewrite Hname. discriminate.
Qed.

(** X10: the separator is in the plan exactly when something comes after
    it: without surviving option and without argument after the
    destination the plan ends with the destination, and otherwise [--] is
    followed by at least one token. *)
Theorem X10_separator_only_before_tokens az argv opts destination args :
  parse argv = Ok (opts, destination :: args) ->
  (surviving opts = [] /\ args = [] ->
   main az argv =
   Execvp "az" ([quoted_az_path az; "ssh"]
                ++ mode_tokens (locals_of opts) destination))
  /\ (surviving opts <> [] \/ args <> [] ->
      main az argv =
      Execvp "az" ([quoted_az_path az; "ssh"]
                   ++ mode_tokens (locals_of opts) destination
                   ++ "--" :: forwarded_tokens opts ++ args)
      /\ forwarded_tokens opts ++ args <> []).
Proof.
  intros Hparse.
  rewrite (main_execvp az _ _ _ _ Hparse). unfold exec_args_of.
  rewrite ssh_opts_locals. split.
  - intros [Hs ->]. unfold forwarded_tokens. rewrite Hs. simpl.
    now rewrite app_nil_r.
  - intros Hsome.
    assert (Hne : forwarded_tokens opts ++ args <> []).
    { intros Hnil. apply app_eq_nil in Hnil. destruct Hnil as [Ht Ha].
      apply (forwarded_tokens_nil _ (parse_well_parsed _ _ _ Hparse)) in Ht.
      tauto. }
    split; [|exact Hne].
    unfold passthrough.
    destruct (forwarded_tokens opts) as [|t toks]; simpl.
    + destruct args; [now elim Hne | reflexivity].
    + reflexivity.
Qed.

Lemma X10_separator_only_before_tokens_witness :
  main sample_az ["-o"; "ControlMaster=auto"; "--subscription"; "s";
                  "host1"]
  = Execvp "az" ([quoted_az_path sample_az; "ssh"]
                 ++ mode_tokens
                      (locals_of [("-o", "ControlMaster=auto");
                                  ("--subscription", "s")]) "host1").
Proof.
  exact (proj1 (X10_separator_only_before_tokens sample_az
                  ["-o"; "ControlMaster=auto"; "--subscription"; "s";
                   "host1"]
                  [("-o", "ControlMaster=auto"); ("--subscription", "s")]
                  "host1" [] eq_refl)
               (conj eq_refl eq_refl)).
Defined.

(** ** The lookup of [az] *)

(** X11: how a run ends is decided by the arguments alone. Either it is
    the usage error whatever [shutil.which] returns, or [os.execvp] is
    called with the file [az] and a list that starts with the looked-up
    path in double quotes ([None] in quotes when there is none) and [ssh],
    and is the same after that whatever the lookup returns. *)
Theorem X11_lookup_only_sets_argv0 argv :
  (exists msg, forall az,
      main az argv = SysExit [("Error: " ++ msg)%string; usage_text] 2)
  \/ (exists tokens,
        (forall az,
            main az argv =
            Execvp "az" (quoted_az_path az :: "ssh" :: tokens))
        /\ main None argv =
           Execvp "az" ((dq ++ "None" ++ dq)%string :: "ssh" :: tokens)).
Proof.
  destruct (parse argv) as [[opts [|d args]]|e] eqn:Hparse.
  - left. exists "pop from empty list". intros az.
    exact (main_no_destination az _ _ Hparse).
  - right.
    exists (mode_tokens (locals_of opts) d
            ++ passthrough (ssh_opts_of (filtered_opts (locals_of opts)))
                           args).
    split; [intros az|]; now rewrite (main_execvp _ _ _ _ _ Hparse).
  - left. exists (exn_str e). intros az.
    exact (main_getopt_error az _ _ Hparse).
Qed.

(** ** The second [f] of [options] *)

Lemma short_has_arg_without_second_f c :
  Getopt.short_has_arg c options =
  Getopt.short_has_arg c options_without_second_f.
Proof. each_char c; vm_compute; reflexivity. Qed.

Lemma do_shorts_same_flags s1 s2 :
  (forall c, Getopt.short_has_arg c s1 = Getopt.short_has_arg c s2) ->
  forall optstring opts args,
    Getopt.do_shorts opts optstring s1 args =
    Getopt.do_shorts opts optstring s2 args.
Proof.
  intros Hsame. induction optstring as [|c s IH]; intros opts args;
    cbn [Getopt.do_shorts]; [reflexivity|].
  rewrite (Hsame c).
  destruct (Getopt.short_has_arg c s2) as [[|]|e]; cbn [bind]; trivial.
Qed.

Lemma getopt_from_same_flags s1 s2 longopts :
  (forall c, Getopt.short_has_arg c s1 = Getopt.short_has_arg c s2) ->
  forall args opts,
    Getopt.getopt_from s1 longopts opts args =
    Getopt.getopt_from s2 longopts opts args.
Proof.
  intros Hsame args.
  remember (length args) as n eqn:Hn. revert args Hn.
  induction n as [n IH] using lt_wf_ind; intros args Hn opts.
  destruct args as [|a rest]; [now rewrite !getopt_from_nil|].
  rewrite !getopt_from_cons.
  destruct (Getopt.is_option a); [|reflexivity].
  destruct (String.eqb a "--"); [reflexivity|].
  assert (Hstep : Getopt.getopt_step s1 longopts opts a rest =
                  Getopt.getopt_step s2 longopts opts a rest).
  { unfold Getopt.getopt_step. destruct (startswith a "--"); trivial.
    now apply do_shorts_same_flags. }
  rewrite Hstep.
  destruct (Getopt.getopt_step s2 longopts opts a rest) as [[o r]|e] eqn:Hs;
    [|reflexivity].
  destruct (getopt_step_shorter _ _ _ _ _ _ _ Hs) as (used & -> & _).
  apply (IH (length r)); [|reflexivity].
  subst n. simpl. rewrite length_app. lia.
Qed.

(** X12: the [f:] of [options] is never reached: as [f] stands earlier in
    the string without a colon, [-f] takes no value, and the arguments are
    parsed as they would be without [f:]. *)
Theorem X12_second_f_is_dead argv :
  parse argv = Getopt.getopt argv options_without_second_f long_options
  /\ Getopt.short_has_arg "f"%char options = Ok false.
Proof.
  split; [|reflexivity].
  unfold parse, Getopt.getopt.
  apply getopt_from_same_flags. exact short_has_arg_without_second_f.
Qed.

(** ** The error line *)







(** ** Outside Arc mode *)

(** X14: when the arguments parse, give a destination and have no
    [--arc], the plan after the subcommand is [--name], the destination
    and what is passed through; the values of [--subscription],
    [--resource-group] and [--local-user] are not in it. *)
Theorem X14_plan_without_arc az argv opts destination args :
  parse argv = Ok (opts, destination :: args) ->
  supplied "--arc" opts = false ->
  plan_tokens (main az argv)
  = Some (["--name"; destination]
          ++ passthrough (forwarded_tokens opts) args).
Proof.
  intros Hparse Harc.
  rewrite (main_execvp az _ _ _ _ Hparse).
  unfold exec_args_of, mode_tokens, plan_tokens.
  now rewrite arc_mode_locals, Harc, ssh_opts_locals.
Qed.

Lemma X14_plan_without_arc_witness :
  plan_tokens (main sample_az ["--subscription"; "s"; "-p"; "22"; "host1";
                               "ls"; "-la"])
  = Some (["--name"; "host1"]
          ++ passthrough
               (forwarded_tokens [("--subscription", "s"); ("-p", "22")])
               ["ls"; "-la"]).
Proof.
  exact (X14_plan_without_arc sample_az
           ["--subscription"; "s"; "-p"; "22"; "host1"; "ls"; "-la"]
           [("--subscription", "s"); ("-p", "22")] "host1" ["ls"; "-la"]
           eq_refl eq_refl).
Defined.
